(** * Dictionary-based IO transforms: LoadImaged and SaveImaged

    A shallow embedding of [monai/transforms/io/dictionary.py].  The two
    classes are thin adapters: they copy the input mapping, walk the
    configured keys with [MapTransform.key_iterator] and delegate every
    present entry to an array-level service ([LoadImage] / [SaveImage]).

    The array-level services are external collaborators.  They are kept
    abstract (class [Services]); everything proved about the adapters holds
    for every implementation of the services. *)

From stdpp Require Import gmap strings list fin_maps.

Abbreviation Key := string (only parsing).
Abbreviation loc := positive (only parsing).

(** ** The collaborators *)

(** What the adapters consume.  [World] is whatever the services can read or
    change when they are invoked (storage, logs, their own counters); a
    service receives the value stored under a key, never the mapping. *)
Class Services := {
  Value : Type;
  ImageReader : Type;
  ServiceError : Type;
  World : Type;
  (* constructor arguments that are only forwarded *)
  ReaderArg : Type;
  DtypeLike : Type;
  ExtraArgs : Type;
  WriterArg : Type;
  Kwargs : Type;
  (* monai.transforms.io.array.LoadImage *)
  LoadImage : Type;
  LoadImage_init : ReaderArg → DtypeLike → bool → ExtraArgs → LoadImage;
  LoadImage_register : LoadImage → ImageReader → LoadImage;
  LoadImage_call :
    LoadImage → Value → option ImageReader → World → (ServiceError + Value) * World;
  (* monai.transforms.io.array.SaveImage *)
  SaveImage : Type;
  SaveImage_init :
    string (* output_dir *) → string (* output_postfix *) → string (* output_ext *) →
    bool (* resample *) → string (* mode *) → string (* padding_mode *) →
    option Z (* scale *) → DtypeLike (* dtype *) → DtypeLike (* output_dtype *) →
    bool (* squeeze_end_dims *) → string (* data_root_dir *) →
    bool (* separate_folder *) → bool (* print_log *) → string (* output_format *) →
    WriterArg (* writer *) → SaveImage;
  SaveImage_set_options :
    SaveImage → option Kwargs → option Kwargs → option Kwargs → option Kwargs → SaveImage;
  SaveImage_call : SaveImage → Value → World → (ServiceError + Value) * World;
}.

Section Adapters.
Context `{S : Services}.

(** ** Exceptions, observable events, program state *)

Inductive Exn :=
| KeyError (key : Key)        (* a configured key is absent, or [d[key]] on an absent key *)
| TypeError                   (* [dict(data)] on something that is not a mapping *)
| Delegated (e : ServiceError) (* whatever the service raised, untouched *).

Inductive Outcome (A : Type) :=
| Ok (a : A)
| Raise (e : Exn).
Global Arguments Ok {A} a.
Global Arguments Raise {A} e.

(** The history of what a call did, one event per operation of the source:
    the iterator handing a key to the loop body, a service invocation with
    its actual arguments, an item assignment. *)
Inductive Event :=
| EvYield (key : Key)
| EvLoad (img : Value) (reader : option ImageReader)
| EvSave (img : Value)
| EvAssign (d : loc) (key : Key) (v : Value).

(** Python dictionaries are mutable objects: the store maps an object
    identity to the current content of the dictionary. *)
Record State := mkState {
  heap : gmap loc (gmap Key Value);
  world : World;
  trace : list Event;
}.

Definition M (A : Type) : Type := State → Outcome A * State.

Global Instance M_ret : MRet M := λ A a σ, (Ok a, σ).
Global Instance M_bind : MBind M := λ A B f m σ,
  match m σ with
  | (Ok a, σ') => f a σ'
  | (Raise e, σ') => (Raise e, σ')
  end.
Definition raise {A} (e : Exn) : M A := λ σ, (Raise e, σ).

(** ** Dictionary primitives *)

(** [d = dict(data)]: a new dictionary object with the entries of [data]. *)
Definition dict_copy (data : loc) : M loc := λ σ,
  match heap σ !! data with
  | Some m =>
      let d := fresh (dom (heap σ)) in
      (Ok d, mkState (<[d := m]> (heap σ)) (world σ) (trace σ))
  | None => (Raise TypeError, σ)
  end.

(** [key in d] *)
Definition dict_contains (d : loc) (key : Key) : M bool := λ σ,
  match heap σ !! d with
  | Some m => (Ok (bool_decide (is_Some (m !! key))), σ)
  | None => (Raise TypeError, σ)
  end.

(** [d[key]] *)
Definition dict_getitem (d : loc) (key : Key) : M Value := λ σ,
  match heap σ !! d with
  | Some m =>
      match m !! key with
      | Some v => (Ok v, σ)
      | None => (Raise (KeyError key), σ)
      end
  | None => (Raise TypeError, σ)
  end.

(** [d[key] = v] *)
Definition dict_setitem (d : loc) (key : Key) (v : Value) : M unit := λ σ,
  match heap σ !! d with
  | Some m =>
      (Ok (), mkState (<[d := <[key := v]> m]> (heap σ)) (world σ)
                      (trace σ ++ [EvAssign d key v]))
  | None => (Raise TypeError, σ)
  end.

(** ** Invoking the services *)

(** [self._loader(img, reader)] *)
Definition invoke_loader (ldr : LoadImage) (img : Value) (reader : option ImageReader)
  : M Value := λ σ,
  match LoadImage_call ldr img reader (world σ) with
  | (inr r, w) => (Ok r, mkState (heap σ) w (trace σ ++ [EvLoad img reader]))
  | (inl e, w) => (Raise (Delegated e), mkState (heap σ) w (trace σ ++ [EvLoad img reader]))
  end.

(** [self.saver(img=img)]; the adapter drops what the service returns. *)
Definition invoke_saver (svr : SaveImage) (img : Value) : M unit := λ σ,
  match SaveImage_call svr img (world σ) with
  | (inr _, w) => (Ok (), mkState (heap σ) w (trace σ ++ [EvSave img]))
  | (inl e, w) => (Raise (Delegated e), mkState (heap σ) w (trace σ ++ [EvSave img]))
  end.

(** The iterator hands [key] to the loop body. *)
Definition yield_key (key : Key) : M unit := λ σ,
  (Ok (), mkState (heap σ) (world σ) (trace σ ++ [EvYield key])).

(** ** MapTransform *)

Record MapTransform := mkMapTransform {
  keys : list Key;
  allow_missing_keys : bool;
}.

(** Modelled from the spec: [MapTransform.__init__] (monai/transforms/transform.py
    is not part of the sources at hand).  The key set and the allow-missing
    flag are fixed at construction time; the keys keep the order in which
    they were given. *)
Definition MapTransform_init (ks : list Key) (allow_missing : bool) : MapTransform :=
  mkMapTransform ks allow_missing.

(** Modelled from the spec: [MapTransform.key_iterator] (same missing file),
    together with the [for key in self.key_iterator(d): body] loop that
    consumes it.  The iterator walks the configured keys in order; a key
    present in [d] is handed to the loop body, an absent key is skipped when
    missing keys are allowed and raises the missing-key error otherwise.
    The error is raised per key, when the walk reaches that key: the body has
    already run for the keys before it. *)
Fixpoint for_key_in (allow_missing : bool) (ks : list Key) (d : loc)
    (body : Key → M unit) : M unit :=
  match ks with
  | [] => mret ()
  | key :: ks' =>
      present ← dict_contains d key;
      if (present : bool) then
        yield_key key;;
        body key;;
        for_key_in allow_missing ks' d body
      else if allow_missing then
        for_key_in allow_missing ks' d body
      else
        raise (KeyError key)
  end.

Definition key_iterator_for (self : MapTransform) (d : loc) (body : Key → M unit)
  : M unit :=
  for_key_in (allow_missing_keys self) (keys self) d body.

(** ** LoadImaged *)

Record LoadImaged := mkLoadImaged {
  LoadImaged_base : MapTransform;
  _loader : LoadImage;
}.

(** Modelled from the spec: the [deprecated_arg] decorator (monai/utils is
    not part of the sources at hand).  A legacy parameter that is supplied
    emits a deprecation signal; execution continues.  [None] stands for a
    parameter the caller left out. *)
Definition deprecated_arg {A} (name : string) (supplied : option A) : list string :=
  match supplied with
  | Some _ => [name]
  | None => []
  end.

(** [LoadImaged.__init__]: the deprecation signals and the new object. *)
Definition LoadImaged_init
    (ks : list Key) (reader : ReaderArg) (dtype : DtypeLike)
    (meta_keys : option (option (list Key))) (meta_key_postfix : option string)
    (overwriting : option bool) (image_only : option bool)
    (ensure_channel_first : bool) (allow_missing : bool) (args : ExtraArgs)
  : list string * LoadImaged :=
  (deprecated_arg "image_only" image_only ++
   deprecated_arg "meta_keys" meta_keys ++
   deprecated_arg "meta_key_postfix" meta_key_postfix ++
   deprecated_arg "overwriting" overwriting,
   mkLoadImaged (MapTransform_init ks allow_missing)
                (LoadImage_init reader dtype ensure_channel_first args)).

(** [LoadImaged.register] *)
Definition LoadImaged_register (self : LoadImaged) (reader : ImageReader) : LoadImaged :=
  mkLoadImaged (LoadImaged_base self) (LoadImage_register (_loader self) reader).

(** The body of the loop in [LoadImaged.__call__]:
    [d[key] = self._loader(d[key], reader)] *)
Definition LoadImaged_body (self : LoadImaged) (d : loc) (reader : option ImageReader)
    (key : Key) : M unit :=
  img ← dict_getitem d key;
  r ← invoke_loader (_loader self) img reader;
  dict_setitem d key r.

(** [LoadImaged.__call__] *)
Definition LoadImaged_call (self : LoadImaged) (data : loc) (reader : option ImageReader)
  : M loc :=
  d ← dict_copy data;
  key_iterator_for (LoadImaged_base self) d (LoadImaged_body self d reader);;
  mret d.

(** ** SaveImaged *)

Record SaveImaged := mkSaveImaged {
  SaveImaged_base : MapTransform;
  saver : SaveImage;
}.

(** [SaveImaged.__init__] *)
Definition SaveImaged_init
    (ks : list Key)
    (meta_keys : option (option (list Key))) (meta_key_postfix : option string)
    (output_dir output_postfix output_ext : string) (resample : bool)
    (mode padding_mode : string) (scale : option Z)
    (dtype output_dtype : DtypeLike) (allow_missing : bool)
    (squeeze_end_dims : bool) (data_root_dir : string)
    (separate_folder print_log : bool) (output_format : string) (writer : WriterArg)
  : list string * SaveImaged :=
  (deprecated_arg "meta_keys" meta_keys ++
   deprecated_arg "meta_key_postfix" meta_key_postfix,
   mkSaveImaged (MapTransform_init ks allow_missing)
                (SaveImage_init output_dir output_postfix output_ext resample mode
                   padding_mode scale dtype output_dtype squeeze_end_dims
                   data_root_dir separate_folder print_log output_format writer)).

(** [SaveImaged.set_options] *)
Definition SaveImaged_set_options (self : SaveImaged)
    (init_kwargs data_kwargs meta_kwargs write_kwargs : option Kwargs) : SaveImaged :=
  mkSaveImaged (SaveImaged_base self)
    (SaveImage_set_options (saver self) init_kwargs data_kwargs meta_kwargs write_kwargs).

(** The body of the loop in [SaveImaged.__call__]: [self.saver(img=d[key])] *)
Definition SaveImaged_body (self : SaveImaged) (d : loc) (key : Key) : M unit :=
  img ← dict_getitem d key;
  invoke_saver (saver self) img.

(** [SaveImaged.__call__] *)
Definition SaveImaged_call (self : SaveImaged) (data : loc) : M loc :=
  d ← dict_copy data;
  key_iterator_for (SaveImaged_base self) d (SaveImaged_body self d);;
  mret d.

(** ** What a caller observes *)

(** The state in which the loop starts: the copy has just been made. *)
Definition after_copy (σ : State) (rec : gmap Key Value) : State :=
  mkState (<[fresh (dom (heap σ)) := rec]> (heap σ)) (world σ) (trace σ).

(** A loop body that, run for a key of the dictionary [d], keeps the set of
    keys of [d] and raises nothing but what a service raised. *)
Definition guarded_body (d : loc) (body : Key → M unit) : Prop :=
  ∀ key σ m, heap σ !! d = Some m → is_Some (m !! key) →
    ∃ m', heap (body key σ).2 !! d = Some m' ∧ dom m' = dom m
          ∧ match (body key σ).1 with
            | Ok _ | Raise (Delegated _) => True
            | Raise (KeyError _) | Raise TypeError => False
            end.

(** The result of a call as the caller sees it: the content of the returned
    dictionary, or the exception. *)
Definition result_of (r : Outcome loc * State) : Exn + option (gmap Key Value) :=
  match r with
  | (Ok d, σ) => inr (heap σ !! d)
  | (Raise e, _) => inl e
  end.

(** The configured keys that are in the record, in configured order. *)
Definition present_keys (rec : gmap Key Value) (ks : list Key) : list Key :=
  filter (λ k, is_Some (rec !! k)) ks.

(** Events without their payload. *)
Inductive Step :=
| StYield (key : Key)
| StInvoke
| StAssign (key : Key).

Definition shape (ev : Event) : Step :=
  match ev with
  | EvYield key => StYield key
  | EvLoad _ _ => StInvoke
  | EvSave _ => StInvoke
  | EvAssign _ key _ => StAssign key
  end.

(** Processing a list of keys one after the other, completely. *)
Definition load_steps (ks : list Key) : list Step :=
  ks ≫= λ k, [StYield k; StInvoke; StAssign k].
Definition save_steps (ks : list Key) : list Step :=
  ks ≫= λ k, [StYield k; StInvoke].

(** What processing a list of keys, one after the other, comes to: the
    error of the service that ended it (if any), the content of the
    dictionary, the state of the service and the events, in order. *)
Record Run := mkRun {
  run_error : option ServiceError;
  run_record : gmap Key Value;
  run_world : World;
  run_events : list Event;
}.

(** Processing the keys [ks] of the dictionary [d] with content [m] strictly
    in the order of [ks], the way the spec describes the load adapter: hand
    the key over, invoke the loader on the current value, reassign the entry,
    then go to the next key; an error of the loader ends the processing. *)
Fixpoint load_keys_in_order (ldr : LoadImage) (reader : option ImageReader) (d : loc)
    (ks : list Key) (m : gmap Key Value) (w : World) : Run :=
  match ks with
  | [] => mkRun None m w []
  | k :: ks' =>
      match m !! k with
      | Some v =>
          match LoadImage_call ldr v reader w with
          | (inr r, w1) =>
              let rest := load_keys_in_order ldr reader d ks' (<[k := r]> m) w1 in
              mkRun (run_error rest) (run_record rest) (run_world rest)
                    ([EvYield k; EvLoad v reader; EvAssign d k r] ++ run_events rest)
          | (inl e, w1) => mkRun (Some e) m w1 [EvYield k; EvLoad v reader]
          end
      | None => load_keys_in_order ldr reader d ks' m w
      end
  end.

(** The same for the save adapter: hand the key over, invoke the saver on
    the value, go to the next key; an error of the saver ends the
    processing.  The dictionary is not written. *)
Fixpoint save_keys_in_order (svr : SaveImage) (ks : list Key) (m : gmap Key Value)
    (w : World) : Run :=
  match ks with
  | [] => mkRun None m w []
  | k :: ks' =>
      match m !! k with
      | Some v =>
          match SaveImage_call svr v w with
          | (inr _, w1) =>
              let rest := save_keys_in_order svr ks' m w1 in
              mkRun (run_error rest) (run_record rest) (run_world rest)
                    ([EvYield k; EvSave v] ++ run_events rest)
          | (inl e, w1) => mkRun (Some e) m w1 [EvYield k; EvSave v]
          end
      | None => save_keys_in_order svr ks' m w
      end
  end.

(** Invoking the load service directly on a list of values, one after the
    other; the first failure ends the sequence. *)
Fixpoint direct_loads (ldr : LoadImage) (reader : option ImageReader)
    (imgs : list Value) (w : World) : (ServiceError + list Value) * World :=
  match imgs with
  | [] => (inr [], w)
  | img :: imgs' =>
      match LoadImage_call ldr img reader w with
      | (inr r, w1) =>
          match direct_loads ldr reader imgs' w1 with
          | (inr rs, w2) => (inr (r :: rs), w2)
          | (inl e, w2) => (inl e, w2)
          end
      | (inl e, w1) => (inl e, w1)
      end
  end.

(** Invoking the save service directly on a list of values, one after the
    other; the first failure ends the sequence. *)
Fixpoint direct_saves (svr : SaveImage) (imgs : list Value) (w : World)
  : (ServiceError + unit) * World :=
  match imgs with
  | [] => (inr (), w)
  | img :: imgs' =>
      match SaveImage_call svr img w with
      | (inr _, w1) => direct_saves svr imgs' w1
      | (inl e, w1) => (inl e, w1)
      end
  end.

(** The exception a call ended with, if any. *)
Definition exception_of {A} (o : Outcome A) : option Exn :=
  match o with
  | Ok _ => None
  | Raise e => Some e
  end.

(** A service replays: what it answers to a request does not depend on the
    requests it has served before. *)
Definition loader_replays (ldr : LoadImage) : Prop :=
  ∀ img reader img' reader' w,
    (LoadImage_call ldr img' reader' (LoadImage_call ldr img reader w).2).1
    = (LoadImage_call ldr img' reader' w).1.
Definition saver_replays (svr : SaveImage) : Prop :=
  ∀ img img' w,
    (SaveImage_call svr img' (SaveImage_call svr img w).2).1
    = (SaveImage_call svr img' w).1.


(** Two worlds in which the service gives the same answers. *)
Definition load_answers_agree (ldr : LoadImage) (w1 w2 : World) : Prop :=
  ∀ img reader,
    (LoadImage_call ldr img reader w1).1 = (LoadImage_call ldr img reader w2).1.
Definition save_answers_agree (svr : SaveImage) (w1 w2 : World) : Prop :=
  ∀ img, (SaveImage_call svr img w1).1 = (SaveImage_call svr img w2).1.

End Adapters.

(** * A concrete pair of services *)

(** Modelled from the spec: the load service wrapped by [LoadImaged]
    (monai/transforms/io/array.py is not part of the sources at hand).  It
    keeps a list of candidate readers; [register] adds a reader to the list;
    a call with a reader override uses that reader, a call without one tries
    the candidates from the last registered to the first and uses the first
    that accepts the input; when no candidate accepts the input it raises a
    backend-resolution error. *)
Module Registry.

Record Reader := mkReader {
  reader_name : string;
  verify_suffix : string → bool;
  read : string → string + string;
}.

Definition register (readers : list Reader) (r : Reader) : list Reader :=
  readers ++ [r].

Definition select (readers : list Reader) (img : string) : option Reader :=
  List.find (λ r, verify_suffix r img) (rev readers).

Definition call (readers : list Reader) (img : string) (reader : option Reader)
  : string + string :=
  match reader with
  | Some r => read r img
  | None =>
      match select readers img with
      | Some r => read r img
      | None => inl "no candidate reader accepts the input"%string
      end
  end.

Definition ends_with (suffix s : string) : bool :=
  (String.length suffix <=? String.length s)%nat
  && String.eqb (String.substring (String.length s - String.length suffix)
                                  (String.length suffix) s) suffix.

(** Two readers to run examples with: one for NIfTI file names, and one
    that takes whatever it is given. *)
Definition nibabel : Reader :=
  mkReader "NibabelReader" (ends_with ".nii")
    (λ img, if String.eqb img "lost.nii" then inl "file not found"%string
            else inr ("nib(" +:+ img +:+ ")")).
Definition itk : Reader :=
  mkReader "ITKReader" (λ _, true) (λ img, inr ("itk(" +:+ img +:+ ")")).
(** The candidates a loader starts with; the catch-all reader is tried last. *)
Definition default_readers : list Reader := [itk; nibabel].
(** A reader of the caller's own that also takes NIfTI file names. *)
Definition custom : Reader :=
  mkReader "CustomReader" (ends_with ".nii") (λ img, inr ("custom(" +:+ img +:+ ")")).

End Registry.

(** Modelled from the spec: a save service (same missing file) that resolves
    an output path from its configuration and the value, records the write,
    and raises on an unsupported extension.  Only the part of the
    configuration that the examples look at is kept. *)
Module Storage.

Record Saver := mkSaver {
  output_dir : string;
  output_postfix : string;
  output_ext : string;
}.

Definition supported (ext : string) : bool :=
  bool_decide (ext ∈ [".nii.gz"; ".nii"; ".png"]).

Definition call (svr : Saver) (img : string) (files : list string)
  : (string + string) * list string :=
  if supported (output_ext svr) then
    (inr img,
     files ++ [output_dir svr +:+ "/" +:+ img +:+ "_" +:+ output_postfix svr
               +:+ output_ext svr])
  else (inl "unsupported extension"%string, files).

End Storage.

Definition demo : Services := {|
  Value := string;
  ImageReader := Registry.Reader;
  ServiceError := string;
  World := list string;
  ReaderArg := option Registry.Reader;
  DtypeLike := string;
  ExtraArgs := unit;
  WriterArg := option string;
  Kwargs := list (string * string);
  LoadImage := list Registry.Reader;
  LoadImage_init := λ reader _ _ _, Registry.default_readers ++ option_list reader;
  LoadImage_register := Registry.register;
  LoadImage_call := λ ldr img reader w, (Registry.call ldr img reader, w);
  SaveImage := Storage.Saver;
  SaveImage_init := λ dir postfix ext _ _ _ _ _ _ _ _ _ _ _ _,
    Storage.mkSaver dir postfix ext;
  SaveImage_set_options := λ svr _ _ _ _, svr;
  SaveImage_call := Storage.call;
|}.

(** A store with one dictionary at location 1. *)
Definition store_of (S : Services) (rec : gmap Key (@Value S)) (w : @World S)
  : @State S :=
  mkState {[ 1%positive := rec ]} w [].

(** Adapters and records to run the calls on. *)
Definition demo_readers : list Registry.Reader := Registry.default_readers.

Definition demo_loader (ks : list Key) (allow_missing : bool) : @LoadImaged demo :=
  @mkLoadImaged demo (mkMapTransform ks allow_missing) demo_readers.

Definition demo_saver (ks : list Key) (allow_missing : bool) (ext : string)
  : @SaveImaged demo :=
  @mkSaveImaged demo (mkMapTransform ks allow_missing)
    (Storage.mkSaver "/out" "pred" ext).

Definition img_seg : gmap Key string :=
  {[ "img" := "scan.nii"; "seg" := "mask.png" ]}%string.
Definition img_only : gmap Key string := {[ "img" := "scan.nii" ]}%string.
Definition lost_img : gmap Key string := {[ "img" := "lost.nii" ]}%string.
Definition dicom_img : gmap Key string := {[ "img" := "scan.dcm" ]}%string.
Definition lost_img_seg : gmap Key string :=
  {[ "img" := "lost.nii"; "seg" := "mask.png" ]}%string.
Definition img_seg_loaded : gmap Key string :=
  {[ "img" := "nib(scan.nii)"; "seg" := "itk(mask.png)" ]}%string.
Definition lost_img_seg_loaded : gmap Key string :=
  {[ "img" := "lost.nii"; "seg" := "itk(mask.png)" ]}%string.

(** A pair of services with memory: a loader whose answer depends on how
    many requests have been served (a reader over a source that moves on
    with every read), and a saver that writes once and refuses to overwrite.
    The world is the number of requests served so far. *)
Definition counting : Services := {|
  Value := nat;
  ImageReader := unit;
  ServiceError := string;
  World := nat;
  ReaderArg := unit;
  DtypeLike := unit;
  ExtraArgs := unit;
  WriterArg := unit;
  Kwargs := unit;
  LoadImage := unit;
  LoadImage_init := λ _ _ _ _, ();
  LoadImage_register := λ ldr _, ldr;
  LoadImage_call := λ _ img _ served, (inr (img + served), S served);
  SaveImage := unit;
  SaveImage_init := λ _ _ _ _ _ _ _ _ _ _ _ _ _ _ _, ();
  SaveImage_set_options := λ svr _ _ _ _, svr;
  SaveImage_call := λ _ img served,
    match served with
    | O => (inr img, 1)
    | S _ => (inl "file exists"%string, served)
    end;
|}.

Definition counting_loader : @LoadImaged counting :=
  @mkLoadImaged counting (mkMapTransform ["img"%string] false) ().
Definition counting_saver : @SaveImaged counting :=
  @mkSaveImaged counting (mkMapTransform ["img"%string] false) ().
Definition img_ten : gmap Key nat := {[ "img"%string := 10 ]}.
Definition img_eleven : gmap Key nat := {[ "img"%string := 11 ]}.

(** * Reasoning about the loop *)

Section Theory.
Context `{S : Services}.

Ltac munfold := unfold mbind, M_bind, mret, M_ret, raise in *.

(** One iteration, for a key that is in the dictionary. *)
Lemma for_key_in_present allow key ks d body σ m :
  heap σ !! d = Some m → is_Some (m !! key) →
  for_key_in allow (key :: ks) d body σ =
  match body key (yield_key key σ).2 with
  | (Ok _, σ') => for_key_in allow ks d body σ'
  | (Raise e, σ') => (Raise e, σ')
  end.
Proof.
  intros Hd Hk. simpl. munfold. unfold dict_contains. rewrite Hd.
  rewrite bool_decide_eq_true_2 by done. simpl.
  destruct (body key _) as [[[]|e] σ']; done.
Qed.

(** One iteration, for a key that is not in the dictionary. *)
Lemma for_key_in_absent allow key ks d body σ m :
  heap σ !! d = Some m → m !! key = None →
  for_key_in allow (key :: ks) d body σ =
  if allow then for_key_in allow ks d body σ else (Raise (KeyError key), σ).
Proof.
  intros Hd Hk. simpl. munfold. unfold dict_contains. rewrite Hd.
  rewrite bool_decide_eq_false_2; [by destruct allow|].
  rewrite Hk. by intros [? ?].
Qed.

(** The loop over a concatenation runs the first part, then the second. *)
Lemma for_key_in_app allow ks1 ks2 d body σ :
  for_key_in allow (ks1 ++ ks2) d body σ =
  match for_key_in allow ks1 d body σ with
  | (Ok _, σ1) => for_key_in allow ks2 d body σ1
  | (Raise e, σ1) => (Raise e, σ1)
  end.
Proof.
  revert σ. induction ks1 as [|k ks1 IH]; intros σ; [done|].
  simpl. munfold.
  destruct (dict_contains d k σ) as [[[]|e] σ1]; [| |done].
  - destruct (yield_key k σ1) as [[[]|e] σ2]; [|done].
    destruct (body k σ2) as [[[]|e] σ3]; [|done]. apply IH.
  - destruct allow; [apply IH|done].
Qed.

(** What the iterator itself does to the state: nothing but the history. *)
Lemma heap_yield_key key σ : heap (yield_key key σ).2 = heap σ.
Proof. done. Qed.
Lemma world_yield_key key σ : world (yield_key key σ).2 = world σ.
Proof. done. Qed.

(** A property of the store and the world that every run of the body on a
    present key keeps is kept by the whole loop. *)
Lemma for_key_in_invariant (I : gmap loc (gmap Key Value) → World → Prop)
    allow ks d body :
  (∀ key σ m, key ∈ ks → I (heap σ) (world σ) →
     heap σ !! d = Some m → is_Some (m !! key) →
     I (heap (body key σ).2) (world (body key σ).2)) →
  ∀ σ, I (heap σ) (world σ) →
    I (heap (for_key_in allow ks d body σ).2) (world (for_key_in allow ks d body σ).2).
Proof.
  induction ks as [|k ks IH]; intros Hbody σ HI; [done|].
  assert (IH' := IH (λ key σ m Hin, Hbody key σ m (list_elem_of_further _ _ _ Hin))).
  destruct (heap σ !! d) as [m|] eqn:Hd.
  - destruct (m !! k) as [v|] eqn:Hk.
    + rewrite (for_key_in_present _ _ _ _ _ _ m) by eauto.
      specialize (Hbody k (yield_key k σ).2 m (list_elem_of_here _ _) HI Hd (mk_is_Some _ _ Hk)).
      destruct (body k _) as [[[]|e] σ']; [by apply IH'|done].
    + rewrite (for_key_in_absent _ _ _ _ _ _ m) by done.
      destruct allow; [by apply IH'|done].
  - simpl. munfold. unfold dict_contains. by rewrite Hd.
Qed.

(** ** The loop bodies and the calls, step by step *)

Lemma LoadImaged_body_run self d reader key σ m v :
  heap σ !! d = Some m → m !! key = Some v →
  LoadImaged_body self d reader key σ =
  match LoadImage_call (_loader self) v reader (world σ) with
  | (inr r, w) =>
      (Ok (), mkState (<[d := <[key := r]> m]> (heap σ)) w
                      (trace σ ++ [EvLoad v reader; EvAssign d key r]))
  | (inl e, w) =>
      (Raise (Delegated e), mkState (heap σ) w (trace σ ++ [EvLoad v reader]))
  end.
Proof.
  intros Hd Hk. unfold LoadImaged_body. munfold.
  unfold dict_getitem. rewrite Hd, Hk. unfold invoke_loader.
  destruct (LoadImage_call _ _ _ _) as [[e|r] w]; [done|].
  unfold dict_setitem. simpl. rewrite Hd. by rewrite <- app_assoc.
Qed.

Lemma SaveImaged_body_run self d key σ m v :
  heap σ !! d = Some m → m !! key = Some v →
  SaveImaged_body self d key σ =
  match SaveImage_call (saver self) v (world σ) with
  | (inr _, w) => (Ok (), mkState (heap σ) w (trace σ ++ [EvSave v]))
  | (inl e, w) => (Raise (Delegated e), mkState (heap σ) w (trace σ ++ [EvSave v]))
  end.
Proof.
  intros Hd Hk. unfold SaveImaged_body. munfold.
  unfold dict_getitem. rewrite Hd, Hk. unfold invoke_saver.
  by destruct (SaveImage_call _ _ _) as [[e|r] w].
Qed.

Lemma after_copy_lookup σ rec :
  heap (after_copy σ rec) !! fresh (dom (heap σ)) = Some rec.
Proof. apply lookup_insert_eq. Qed.

Lemma fresh_not_allocated (σ : State) : heap σ !! fresh (dom (heap σ)) = None.
Proof. apply not_elem_of_dom, is_fresh. Qed.

Lemma LoadImaged_call_run self data reader σ rec :
  heap σ !! data = Some rec →
  LoadImaged_call self data reader σ =
  match for_key_in (allow_missing_keys (LoadImaged_base self)) (keys (LoadImaged_base self))
          (fresh (dom (heap σ)))
          (LoadImaged_body self (fresh (dom (heap σ))) reader) (after_copy σ rec) with
  | (Ok _, σ') => (Ok (fresh (dom (heap σ))), σ')
  | (Raise e, σ') => (Raise e, σ')
  end.
Proof.
  intros Hd. unfold LoadImaged_call, key_iterator_for. munfold.
  unfold dict_copy. rewrite Hd. fold (after_copy σ rec).
  by destruct (for_key_in _ _ _ _ _) as [[[]|e] σ'].
Qed.

Lemma SaveImaged_call_run self data σ rec :
  heap σ !! data = Some rec →
  SaveImaged_call self data σ =
  match for_key_in (allow_missing_keys (SaveImaged_base self)) (keys (SaveImaged_base self))
          (fresh (dom (heap σ)))
          (SaveImaged_body self (fresh (dom (heap σ)))) (after_copy σ rec) with
  | (Ok _, σ') => (Ok (fresh (dom (heap σ))), σ')
  | (Raise e, σ') => (Raise e, σ')
  end.
Proof.
  intros Hd. unfold SaveImaged_call, key_iterator_for. munfold.
  unfold dict_copy. rewrite Hd. fold (after_copy σ rec).
  by destruct (for_key_in _ _ _ _ _) as [[[]|e] σ'].
Qed.

Lemma LoadImaged_call_not_mapping self data reader σ :
  heap σ !! data = None → LoadImaged_call self data reader σ = (Raise TypeError, σ).
Proof.
  intros Hd. unfold LoadImaged_call. munfold. unfold dict_copy. by rewrite Hd.
Qed.

Lemma SaveImaged_call_not_mapping self data σ :
  heap σ !! data = None → SaveImaged_call self data σ = (Raise TypeError, σ).
Proof.
  intros Hd. unfold SaveImaged_call. munfold. unfold dict_copy. by rewrite Hd.
Qed.

(** ** What the loops do to the store *)

(** The load loop rewrites the copy [d] and nothing else; in the copy the
    set of keys stays what it was and only configured keys change. *)
Lemma load_loop_heap self allow ks d reader σ rec :
  heap σ !! d = Some rec →
  ∃ m', heap (for_key_in allow ks d (LoadImaged_body self d reader) σ).2
          = <[d := m']> (heap σ)
        ∧ dom m' = dom rec
        ∧ ∀ k, k ∉ ks → m' !! k = rec !! k.
Proof.
  intros Hd.
  apply (for_key_in_invariant
    (λ h _, ∃ m', h = <[d := m']> (heap σ) ∧ dom m' = dom rec
                  ∧ ∀ k, k ∉ ks → m' !! k = rec !! k)).
  - intros key τ m Hin (m' & Hh & Hdom & Hout) Hm Hkey.
    rewrite Hh, lookup_insert_eq in Hm. injection Hm as <-.
    destruct Hkey as [v Hv].
    rewrite (LoadImaged_body_run _ _ _ _ _ m' v); [|by rewrite Hh, lookup_insert_eq|done].
    destruct (LoadImage_call _ _ _ _) as [[e|r] w]; simpl; [by eauto|].
    exists (<[key := r]> m'). rewrite Hh, insert_insert_eq. split_and!; [done| |].
    + rewrite <- Hdom. apply dom_insert_lookup_L; eauto.
    + intros k Hk. rewrite lookup_insert_ne; [by apply Hout|].
      by intros ->.
  - exists rec. by rewrite insert_id.
Qed.

(** The save loop leaves the whole store alone. *)
Lemma save_loop_heap self allow ks d σ :
  heap (for_key_in allow ks d (SaveImaged_body self d) σ).2 = heap σ.
Proof.
  apply (for_key_in_invariant (λ h _, h = heap σ)); [|done].
  intros key τ m Hin Hh Hm [v Hv].
  rewrite (SaveImaged_body_run _ _ _ _ m v) by done.
  by destruct (SaveImage_call _ _ _) as [[e|r] w].
Qed.

(** ** Frame properties *)

(** C3.  When [SaveImaged.__call__] returns, the returned dictionary has
    exactly the content of the input record: the same keys, bound to the
    same values.  Saving only acts on the world of the service. *)
Theorem SaveImaged_call_same_content self data σ rec d σ' :
  heap σ !! data = Some rec →
  SaveImaged_call self data σ = (Ok d, σ') →
  heap σ' !! d = Some rec.
Proof.
  intros Hd Hcall. rewrite (SaveImaged_call_run _ _ _ rec Hd) in Hcall.
  pose proof (save_loop_heap self (allow_missing_keys (SaveImaged_base self))
    (keys (SaveImaged_base self)) (fresh (dom (heap σ))) (after_copy σ rec)) as Hh.
  destruct (for_key_in _ _ _ _ _) as [[[]|e] τ]; [|done].
  injection Hcall as <- <-. simpl in Hh. rewrite Hh. apply after_copy_lookup.
Qed.

(** C4.  Both calls work on a copy: whatever the outcome, every dictionary
    that existed before the call, the caller's mapping included, still has
    the content it had; a returned dictionary is a new object. *)
Theorem call_leaves_caller_mapping (ld : LoadImaged) (sv : SaveImaged) data reader σ :
  heap σ ⊆ heap (LoadImaged_call ld data reader σ).2
  ∧ heap σ ⊆ heap (SaveImaged_call sv data σ).2
  ∧ match (LoadImaged_call ld data reader σ).1 with
    | Ok d => heap σ !! d = None
    | Raise _ => True
    end
  ∧ match (SaveImaged_call sv data σ).1 with
    | Ok d => heap σ !! d = None
    | Raise _ => True
    end.
Proof.
  destruct (heap σ !! data) as [rec|] eqn:Hd.
  - rewrite (LoadImaged_call_run _ _ _ _ rec Hd), (SaveImaged_call_run _ _ _ rec Hd).
    destruct (load_loop_heap ld (allow_missing_keys (LoadImaged_base ld))
      (keys (LoadImaged_base ld)) (fresh (dom (heap σ))) reader (after_copy σ rec) rec
      (after_copy_lookup σ rec)) as (m' & Hl & _ & _).
    pose proof (save_loop_heap sv (allow_missing_keys (SaveImaged_base sv))
      (keys (SaveImaged_base sv)) (fresh (dom (heap σ))) (after_copy σ rec)) as Hs.
    destruct (for_key_in _ _ _ (LoadImaged_body _ _ _) _) as [[[]|e1] τ1];
      destruct (for_key_in _ _ _ (SaveImaged_body _ _) _) as [[[]|e2] τ2];
      simpl in *; rewrite Hl, Hs, insert_insert_eq;
      split_and!; auto using fresh_not_allocated;
      apply insert_subseteq, fresh_not_allocated.
  - rewrite LoadImaged_call_not_mapping, SaveImaged_call_not_mapping by done.
    done.
Qed.

(** C6.  In the dictionary returned by [LoadImaged.__call__] every key that
    is not a configured key is bound exactly as in the input record. *)
Theorem LoadImaged_call_other_keys self data reader σ rec d σ' k :
  heap σ !! data = Some rec →
  k ∉ keys (LoadImaged_base self) →
  LoadImaged_call self data reader σ = (Ok d, σ') →
  ∃ m', heap σ' !! d = Some m' ∧ m' !! k = rec !! k.
Proof.
  intros Hd Hk Hcall. rewrite (LoadImaged_call_run _ _ _ _ rec Hd) in Hcall.
  destruct (load_loop_heap self (allow_missing_keys (LoadImaged_base self))
    (keys (LoadImaged_base self)) (fresh (dom (heap σ))) reader (after_copy σ rec) rec
    (after_copy_lookup σ rec)) as (m' & Hl & _ & Hout).
  destruct (for_key_in _ _ _ _ _) as [[[]|e] τ]; [|done].
  injection Hcall as <- <-. exists m'. simpl in Hl.
  rewrite Hl, lookup_insert_eq. auto.
Qed.

(** ** Order of processing *)

Lemma present_keys_dom (m1 m2 : gmap Key Value) ks :
  dom m1 = dom m2 → present_keys m1 ks = present_keys m2 ks.
Proof.
  intros Hdom. apply list_filter_iff. intros k.
  by rewrite <- !elem_of_dom, Hdom.
Qed.

Lemma present_keys_cons_present (m : gmap Key Value) k ks :
  is_Some (m !! k) → present_keys m (k :: ks) = k :: present_keys m ks.
Proof. intros. unfold present_keys. by rewrite filter_cons_True. Qed.

Lemma present_keys_cons_absent (m : gmap Key Value) k ks :
  m !! k = None → present_keys m (k :: ks) = present_keys m ks.
Proof.
  intros Hk. unfold present_keys. rewrite filter_cons_False; [done|].
  rewrite Hk. by intros [? ?].
Qed.

Lemma load_loop_trace self allow reader d ks : ∀ σ m,
  heap σ !! d = Some m →
  ∃ t, trace (for_key_in allow ks d (LoadImaged_body self d reader) σ).2 = trace σ ++ t
       ∧ shape <$> t `prefix_of` load_steps (present_keys m ks)
       ∧ match (for_key_in allow ks d (LoadImaged_body self d reader) σ).1 with
         | Ok _ => shape <$> t = load_steps (present_keys m ks)
         | Raise _ => True
         end.
Proof.
  induction ks as [|k ks IH]; intros σ m Hd.
  { exists []. simpl. by rewrite app_nil_r. }
  destruct (m !! k) as [v|] eqn:Hk.
  - rewrite (for_key_in_present _ _ _ _ _ _ m), present_keys_cons_present by eauto.
    rewrite (LoadImaged_body_run _ _ _ _ _ m v) by done.
    destruct (LoadImage_call _ _ _ _) as [[e|r] w]; simpl.
    + exists [EvYield k; EvLoad v reader]. rewrite <- app_assoc. split_and!; [done| |done].
      by exists (StAssign k :: load_steps (present_keys m ks)).
    + edestruct (IH (mkState (<[d := <[k := r]> m]> (heap σ)) w
         ((trace σ ++ [EvYield k]) ++ [EvLoad v reader; EvAssign d k r])))
        as (t & Ht & Hpre & Hok); [apply lookup_insert_eq|].
      rewrite (present_keys_dom _ m) in Hpre, Hok by (apply dom_insert_lookup_L; eauto).
      exists ([EvYield k; EvLoad v reader; EvAssign d k r] ++ t). split_and!.
      * rewrite Ht. simpl. by rewrite <- !app_assoc.
      * by do 3 apply prefix_cons.
      * destruct (for_key_in _ _ _ _ _).1; [|done]. by rewrite fmap_app, Hok.
  - rewrite (for_key_in_absent _ _ _ _ _ _ m), present_keys_cons_absent by done.
    destruct allow; [by apply IH|].
    exists []. simpl. rewrite app_nil_r. split_and!; [done|apply prefix_nil|done].
Qed.

Lemma save_loop_trace self allow d ks : ∀ σ m,
  heap σ !! d = Some m →
  ∃ t, trace (for_key_in allow ks d (SaveImaged_body self d) σ).2 = trace σ ++ t
       ∧ shape <$> t `prefix_of` save_steps (present_keys m ks)
       ∧ match (for_key_in allow ks d (SaveImaged_body self d) σ).1 with
         | Ok _ => shape <$> t = save_steps (present_keys m ks)
         | Raise _ => True
         end.
Proof.
  induction ks as [|k ks IH]; intros σ m Hd.
  { exists []. simpl. by rewrite app_nil_r. }
  destruct (m !! k) as [v|] eqn:Hk.
  - rewrite (for_key_in_present _ _ _ _ _ _ m), present_keys_cons_present by eauto.
    rewrite (SaveImaged_body_run _ _ _ _ m v) by done.
    destruct (SaveImage_call _ _ _) as [[e|r] w]; simpl.
    + exists [EvYield k; EvSave v]. rewrite <- app_assoc. split_and!; [done| |done].
      by exists (save_steps (present_keys m ks)).
    + edestruct (IH (mkState (heap σ) w ((trace σ ++ [EvYield k]) ++ [EvSave v])))
        as (t & Ht & Hpre & Hok); [exact Hd|].
      exists ([EvYield k; EvSave v] ++ t). split_and!.
      * rewrite Ht. simpl. by rewrite <- !app_assoc.
      * by do 2 apply prefix_cons.
      * destruct (for_key_in _ _ _ _ _).1; [|done]. by rewrite fmap_app, Hok.
  - rewrite (for_key_in_absent _ _ _ _ _ _ m), present_keys_cons_absent by done.
    destruct allow; [by apply IH|].
    exists []. simpl. rewrite app_nil_r. split_and!; [done|apply prefix_nil|done].
Qed.

(** The load loop against processing in order.  The keys the loop has
    processed are an initial part [ps] of the present keys; store, service
    and history are what processing [ps] in order gives. *)
Lemma load_loop_in_order self allow reader d ks : ∀ σ m,
  heap σ !! d = Some m →
  ∃ ps, ps `prefix_of` present_keys m ks
    ∧ heap (for_key_in allow ks d (LoadImaged_body self d reader) σ).2 !! d
      = Some (run_record (load_keys_in_order (_loader self) reader d ps m (world σ)))
    ∧ world (for_key_in allow ks d (LoadImaged_body self d reader) σ).2
      = run_world (load_keys_in_order (_loader self) reader d ps m (world σ))
    ∧ trace (for_key_in allow ks d (LoadImaged_body self d reader) σ).2
      = trace σ ++ run_events (load_keys_in_order (_loader self) reader d ps m (world σ))
    ∧ match (for_key_in allow ks d (LoadImaged_body self d reader) σ).1 with
      | Ok _ =>
          ps = present_keys m ks
          ∧ run_error (load_keys_in_order (_loader self) reader d ps m (world σ)) = None
      | Raise (Delegated e) =>
          run_error (load_keys_in_order (_loader self) reader d ps m (world σ)) = Some e
      | Raise (KeyError k) =>
          allow = false
          ∧ run_error (load_keys_in_order (_loader self) reader d ps m (world σ)) = None
          ∧ m !! k = None ∧ ∃ ks2, ks = ps ++ k :: ks2
      | Raise TypeError => False
      end.
Proof.
  induction ks as [|k ks IH]; intros σ m Hd.
  { exists []. simpl. by rewrite app_nil_r. }
  destruct (m !! k) as [v|] eqn:Hk.
  - rewrite (for_key_in_present _ _ _ _ _ _ m), present_keys_cons_present by eauto.
    rewrite (LoadImaged_body_run _ _ _ _ _ m v) by done. simpl.
    destruct (LoadImage_call _ v reader (world σ)) as [[e|r] w] eqn:Hcall.
    + exists [k]. simpl. rewrite Hk, Hcall. simpl. rewrite <- app_assoc.
      split_and!; [|done..]. apply prefix_cons, prefix_nil.
    + edestruct (IH (mkState (<[d := <[k := r]> m]> (heap σ)) w
         ((trace σ ++ [EvYield k]) ++ [EvLoad v reader; EvAssign d k r])))
        as (ps & Hpre & Hh & Hw & Ht & Hout); [apply lookup_insert_eq|].
      rewrite (present_keys_dom _ m) in Hpre, Hout by (apply dom_insert_lookup_L; eauto).
      exists (k :: ps). simpl. rewrite Hk, Hcall. simpl in *.
      split_and!; [by apply prefix_cons|done|done|by rewrite Ht, <- !app_assoc|].
      destruct (for_key_in _ _ _ _ _).1 as [[]|[k'| |e]]; [|..|done|done].
      * destruct Hout as [-> ?]. done.
      * destruct Hout as (? & ? & Hk' & ks2 & ->). split_and!; [done..| |by exists ks2].
        rewrite lookup_insert_ne in Hk'; [done|]. intros ->.
        by rewrite lookup_insert_eq in Hk'.
  - rewrite (for_key_in_absent _ _ _ _ _ _ m), present_keys_cons_absent by done.
    destruct allow.
    + destruct (IH σ m Hd) as (ps & Hpre & Hh & Hw & Ht & Hout).
      exists ps. split_and!; [done..|].
      destruct (for_key_in _ _ _ _ _).1 as [[]|[k'| |e]]; [done| |done|done].
      by destruct Hout.
    + exists []. simpl. rewrite app_nil_r. split_and!; [apply prefix_nil|done..|].
      by exists ks.
Qed.

Lemma save_loop_in_order self allow d ks : ∀ σ m,
  heap σ !! d = Some m →
  ∃ ps, ps `prefix_of` present_keys m ks
    ∧ heap (for_key_in allow ks d (SaveImaged_body self d) σ).2 !! d
      = Some (run_record (save_keys_in_order (saver self) ps m (world σ)))
    ∧ world (for_key_in allow ks d (SaveImaged_body self d) σ).2
      = run_world (save_keys_in_order (saver self) ps m (world σ))
    ∧ trace (for_key_in allow ks d (SaveImaged_body self d) σ).2
      = trace σ ++ run_events (save_keys_in_order (saver self) ps m (world σ))
    ∧ match (for_key_in allow ks d (SaveImaged_body self d) σ).1 with
      | Ok _ =>
          ps = present_keys m ks
          ∧ run_error (save_keys_in_order (saver self) ps m (world σ)) = None
      | Raise (Delegated e) =>
          run_error (save_keys_in_order (saver self) ps m (world σ)) = Some e
      | Raise (KeyError k) =>
          allow = false
          ∧ run_error (save_keys_in_order (saver self) ps m (world σ)) = None
          ∧ m !! k = None ∧ ∃ ks2, ks = ps ++ k :: ks2
      | Raise TypeError => False
      end.
Proof.
  induction ks as [|k ks IH]; intros σ m Hd.
  { exists []. simpl. by rewrite app_nil_r. }
  destruct (m !! k) as [v|] eqn:Hk.
  - rewrite (for_key_in_present _ _ _ _ _ _ m), present_keys_cons_present by eauto.
    rewrite (SaveImaged_body_run _ _ _ _ m v) by done. simpl.
    destruct (SaveImage_call _ v (world σ)) as [[e|r] w] eqn:Hcall.
    + exists [k]. simpl. rewrite Hk, Hcall. simpl. rewrite <- app_assoc.
      split_and!; [|done..]. apply prefix_cons, prefix_nil.
    + edestruct (IH (mkState (heap σ) w ((trace σ ++ [EvYield k]) ++ [EvSave v])))
        as (ps & Hpre & Hh & Hw & Ht & Hout); [exact Hd|].
      exists (k :: ps). simpl. rewrite Hk, Hcall. simpl in *.
      split_and!; [by apply prefix_cons|done|done|by rewrite Ht, <- !app_assoc|].
      destruct (for_key_in _ _ _ _ _).1 as [[]|[k'| |e]]; [|..|done|done].
      * destruct Hout as [-> ?]. done.
      * destruct Hout as (? & ? & Hk' & ks2 & ->). split_and!; [done..|by exists ks2].
  - rewrite (for_key_in_absent _ _ _ _ _ _ m), present_keys_cons_absent by done.
    destruct allow.
    + destruct (IH σ m Hd) as (ps & Hpre & Hh & Hw & Ht & Hout).
      exists ps. split_and!; [done..|].
      destruct (for_key_in _ _ _ _ _).1 as [[]|[k'| |e]]; [done| |done|done].
      by destruct Hout.
    + exists []. simpl. rewrite app_nil_r. split_and!; [apply prefix_nil|done..|].
      by exists ks.
Qed.

(** C7.  During a call the configured keys that are in the record are
    processed in configured order, one at a time: for [LoadImaged] each key
    is handed over, the loader is invoked on the current value and the entry
    reassigned to the answer before the next key is looked at; for
    [SaveImaged] each key is handed over and the saver invoked on the value.
    - The history of the call, payloads left aside, is that sequence of steps
      for the present configured keys, completely if the call returns and up
      to some point if it raises.
    - The call has processed an initial part [ps] of the present configured
      keys, and the copy [d], the state of the service and the history with
      its payloads are exactly what processing [ps] in order gives.  If the
      call returns, [ps] is all of the present configured keys; if it raises
      a service error, that is the error that ended the processing; if it
      raises the missing-key error for [k], the keys before [k] are [ps]. *)
Theorem keys_processed_in_configured_order (ld : LoadImaged) (sv : SaveImaged)
    data reader σ rec :
  heap σ !! data = Some rec →
  (∃ t, trace (LoadImaged_call ld data reader σ).2 = trace σ ++ t
        ∧ shape <$> t `prefix_of`
            load_steps (present_keys rec (keys (LoadImaged_base ld)))
        ∧ match (LoadImaged_call ld data reader σ).1 with
          | Ok _ => shape <$> t = load_steps (present_keys rec (keys (LoadImaged_base ld)))
          | Raise _ => True
          end)
  ∧ (∃ t, trace (SaveImaged_call sv data σ).2 = trace σ ++ t
        ∧ shape <$> t `prefix_of`
            save_steps (present_keys rec (keys (SaveImaged_base sv)))
        ∧ match (SaveImaged_call sv data σ).1 with
          | Ok _ => shape <$> t = save_steps (present_keys rec (keys (SaveImaged_base sv)))
          | Raise _ => True
          end)
  ∧ (∃ d ps,
        heap σ !! d = None
        ∧ ps `prefix_of` present_keys rec (keys (LoadImaged_base ld))
        ∧ heap (LoadImaged_call ld data reader σ).2 !! d
          = Some (run_record (load_keys_in_order (_loader ld) reader d ps rec (world σ)))
        ∧ world (LoadImaged_call ld data reader σ).2
          = run_world (load_keys_in_order (_loader ld) reader d ps rec (world σ))
        ∧ trace (LoadImaged_call ld data reader σ).2
          = trace σ ++ run_events (load_keys_in_order (_loader ld) reader d ps rec (world σ))
        ∧ match (LoadImaged_call ld data reader σ).1 with
          | Ok d' =>
              d' = d ∧ ps = present_keys rec (keys (LoadImaged_base ld))
              ∧ run_error (load_keys_in_order (_loader ld) reader d ps rec (world σ)) = None
          | Raise (Delegated e) =>
              run_error (load_keys_in_order (_loader ld) reader d ps rec (world σ)) = Some e
          | Raise (KeyError k) =>
              allow_missing_keys (LoadImaged_base ld) = false
              ∧ run_error (load_keys_in_order (_loader ld) reader d ps rec (world σ)) = None
              ∧ rec !! k = None
              ∧ ∃ ks2, keys (LoadImaged_base ld) = ps ++ k :: ks2
          | Raise TypeError => False
          end)
  ∧ (∃ d ps,
        heap σ !! d = None
        ∧ ps `prefix_of` present_keys rec (keys (SaveImaged_base sv))
        ∧ heap (SaveImaged_call sv data σ).2 !! d
          = Some (run_record (save_keys_in_order (saver sv) ps rec (world σ)))
        ∧ world (SaveImaged_call sv data σ).2
          = run_world (save_keys_in_order (saver sv) ps rec (world σ))
        ∧ trace (SaveImaged_call sv data σ).2
          = trace σ ++ run_events (save_keys_in_order (saver sv) ps rec (world σ))
        ∧ match (SaveImaged_call sv data σ).1 with
          | Ok d' =>
              d' = d ∧ ps = present_keys rec (keys (SaveImaged_base sv))
              ∧ run_error (save_keys_in_order (saver sv) ps rec (world σ)) = None
          | Raise (Delegated e) =>
              run_error (save_keys_in_order (saver sv) ps rec (world σ)) = Some e
          | Raise (KeyError k) =>
              allow_missing_keys (SaveImaged_base sv) = false
              ∧ run_error (save_keys_in_order (saver sv) ps rec (world σ)) = None
              ∧ rec !! k = None
              ∧ ∃ ks2, keys (SaveImaged_base sv) = ps ++ k :: ks2
          | Raise TypeError => False
          end).
Proof.
  intros Hd. split_and!.
  - rewrite (LoadImaged_call_run _ _ _ _ rec Hd).
    destruct (load_loop_trace ld (allow_missing_keys (LoadImaged_base ld)) reader
      (fresh (dom (heap σ))) (keys (LoadImaged_base ld)) (after_copy σ rec) rec
      (after_copy_lookup σ rec)) as (t & Ht & Hpre & Hok).
    exists t. by destruct (for_key_in _ _ _ _ _) as [[[]|e] τ].
  - rewrite (SaveImaged_call_run _ _ _ rec Hd).
    destruct (save_loop_trace sv (allow_missing_keys (SaveImaged_base sv))
      (fresh (dom (heap σ))) (keys (SaveImaged_base sv)) (after_copy σ rec) rec
      (after_copy_lookup σ rec)) as (t & Ht & Hpre & Hok).
    exists t. by destruct (for_key_in _ _ _ _ _) as [[[]|e] τ].
  - rewrite (LoadImaged_call_run _ _ _ _ rec Hd).
    destruct (load_loop_in_order ld (allow_missing_keys (LoadImaged_base ld)) reader
      (fresh (dom (heap σ))) (keys (LoadImaged_base ld)) (after_copy σ rec) rec
      (after_copy_lookup σ rec)) as (ps & Hpre & Hh & Hw & Ht & Hout).
    exists (fresh (dom (heap σ))), ps.
    split; [apply fresh_not_allocated|]. split; [done|].
    by destruct (for_key_in _ _ _ _ _) as [[[]|[k| |e]] τ].
  - rewrite (SaveImaged_call_run _ _ _ rec Hd).
    destruct (save_loop_in_order sv (allow_missing_keys (SaveImaged_base sv))
      (fresh (dom (heap σ))) (keys (SaveImaged_base sv)) (after_copy σ rec) rec
      (after_copy_lookup σ rec)) as (ps & Hpre & Hh & Hw & Ht & Hout).
    exists (fresh (dom (heap σ))), ps.
    split; [apply fresh_not_allocated|]. split; [done|].
    by destruct (for_key_in _ _ _ _ _) as [[[]|[k| |e]] τ].
Qed.

(** ** Errors of the services *)

Lemma call_ok_is_mapping_load self data reader σ d σ' :
  LoadImaged_call self data reader σ = (Ok d, σ') → is_Some (heap σ !! data).
Proof.
  intros Hcall. destruct (heap σ !! data) eqn:Hd; [eauto|].
  by rewrite LoadImaged_call_not_mapping in Hcall.
Qed.

Lemma call_ok_is_mapping_save self data σ d σ' :
  SaveImaged_call self data σ = (Ok d, σ') → is_Some (heap σ !! data).
Proof.
  intros Hcall. destruct (heap σ !! data) eqn:Hd; [eauto|].
  by rewrite SaveImaged_call_not_mapping in Hcall.
Qed.

(** A call that returned for the keys [ks1] tells where the loop stands when
    a longer key list [ks1 ++ ks2] is configured. *)
Lemma LoadImaged_call_prefix allow ldr ks1 ks2 data reader σ d σ1 :
  LoadImaged_call (mkLoadImaged (mkMapTransform ks1 allow) ldr) data reader σ = (Ok d, σ1) →
  LoadImaged_call (mkLoadImaged (mkMapTransform (ks1 ++ ks2) allow) ldr) data reader σ =
  match for_key_in allow ks2 d
          (LoadImaged_body (mkLoadImaged (mkMapTransform (ks1 ++ ks2) allow) ldr) d reader)
          σ1 with
  | (Ok _, σ') => (Ok d, σ')
  | (Raise e, σ') => (Raise e, σ')
  end.
Proof.
  intros Hcall. destruct (call_ok_is_mapping_load _ _ _ _ _ _ Hcall) as [rec Hd].
  rewrite (LoadImaged_call_run _ _ _ _ rec Hd) in Hcall.
  rewrite (LoadImaged_call_run _ _ _ _ rec Hd). simpl in *.
  rewrite for_key_in_app.
  change (LoadImaged_body (mkLoadImaged (mkMapTransform (ks1 ++ ks2) allow) ldr))
    with (LoadImaged_body (mkLoadImaged (mkMapTransform ks1 allow) ldr)).
  destruct (for_key_in allow ks1 _ _ _) as [[[]|e] τ]; [|done].
  by injection Hcall as <- <-.
Qed.

Lemma SaveImaged_call_prefix allow svr ks1 ks2 data σ d σ1 :
  SaveImaged_call (mkSaveImaged (mkMapTransform ks1 allow) svr) data σ = (Ok d, σ1) →
  SaveImaged_call (mkSaveImaged (mkMapTransform (ks1 ++ ks2) allow) svr) data σ =
  match for_key_in allow ks2 d
          (SaveImaged_body (mkSaveImaged (mkMapTransform (ks1 ++ ks2) allow) svr) d)
          σ1 with
  | (Ok _, σ') => (Ok d, σ')
  | (Raise e, σ') => (Raise e, σ')
  end.
Proof.
  intros Hcall. destruct (call_ok_is_mapping_save _ _ _ _ _ Hcall) as [rec Hd].
  rewrite (SaveImaged_call_run _ _ _ rec Hd) in Hcall.
  rewrite (SaveImaged_call_run _ _ _ rec Hd). simpl in *.
  rewrite for_key_in_app.
  change (SaveImaged_body (mkSaveImaged (mkMapTransform (ks1 ++ ks2) allow) svr))
    with (SaveImaged_body (mkSaveImaged (mkMapTransform ks1 allow) svr)).
  destruct (for_key_in allow ks1 _ _ _) as [[[]|e] τ]; [|done].
  by injection Hcall as <- <-.
Qed.

(** C5.  Let the configured keys be [ks1 ++ k :: ks2], let the keys [ks1]
    be processed without error (the call configured with [ks1] alone returns
    [d] in state [σ1]) and let the service raise [e] for the value at [k].
    Then the call raises exactly [e]; the store is the one reached after
    [ks1], so the entries reassigned for earlier keys stay reassigned in the
    copy; the history ends with the failing invocation, so no key of [ks2] is
    looked at. *)
Theorem service_error_aborts_call allow ks1 k ks2 data σ d σ1 m v :
  heap σ1 !! d = Some m → m !! k = Some v →
  (∀ ldr reader e w',
     LoadImaged_call (mkLoadImaged (mkMapTransform ks1 allow) ldr) data reader σ
       = (Ok d, σ1) →
     LoadImage_call ldr v reader (world σ1) = (inl e, w') →
     LoadImaged_call (mkLoadImaged (mkMapTransform (ks1 ++ k :: ks2) allow) ldr) data reader σ
       = (Raise (Delegated e),
          mkState (heap σ1) w' (trace σ1 ++ [EvYield k; EvLoad v reader])))
  ∧ (∀ svr e w',
     SaveImaged_call (mkSaveImaged (mkMapTransform ks1 allow) svr) data σ = (Ok d, σ1) →
     SaveImage_call svr v (world σ1) = (inl e, w') →
     SaveImaged_call (mkSaveImaged (mkMapTransform (ks1 ++ k :: ks2) allow) svr) data σ
       = (Raise (Delegated e),
          mkState (heap σ1) w' (trace σ1 ++ [EvYield k; EvSave v]))).
Proof.
  intros Hd Hk. split.
  - intros ldr reader e w' Hpre Hsvc.
    rewrite (LoadImaged_call_prefix _ _ _ _ _ _ _ _ _ Hpre).
    rewrite (for_key_in_present _ _ _ _ _ _ m) by eauto.
    rewrite (LoadImaged_body_run _ _ _ _ _ m v) by done.
    simpl. rewrite Hsvc. by rewrite <- app_assoc.
  - intros svr e w' Hpre Hsvc.
    rewrite (SaveImaged_call_prefix _ _ _ _ _ _ _ _ Hpre).
    rewrite (for_key_in_present _ _ _ _ _ _ m) by eauto.
    rewrite (SaveImaged_body_run _ _ _ _ m v) by done.
    simpl. rewrite Hsvc. by rewrite <- app_assoc.
Qed.

(** ** Missing keys *)

Lemma LoadImaged_body_guarded self d reader : guarded_body d (LoadImaged_body self d reader).
Proof.
  intros key σ m Hd [v Hv]. rewrite (LoadImaged_body_run _ _ _ _ _ m v) by done.
  destruct (LoadImage_call _ _ _ _) as [[e|r] w]; simpl; [by eauto|].
  exists (<[key := r]> m). rewrite lookup_insert_eq. split_and!; [done| |done].
  apply dom_insert_lookup_L; eauto.
Qed.

Lemma SaveImaged_body_guarded self d : guarded_body d (SaveImaged_body self d).
Proof.
  intros key σ m Hd [v Hv]. rewrite (SaveImaged_body_run _ _ _ _ m v) by done.
  destruct (SaveImage_call _ _ _) as [[e|r] w]; simpl; by eauto.
Qed.

(** How the loop can end: it completes only if missing keys are allowed or
    no key is missing; its missing-key error names a configured key that is
    missing, and only when missing keys are not allowed. *)
Lemma for_key_in_outcome allow d body ks :
  guarded_body d body →
  ∀ σ m, heap σ !! d = Some m →
    match (for_key_in allow ks d body σ).1 with
    | Ok _ => allow = true ∨ ∀ k, k ∈ ks → is_Some (m !! k)
    | Raise (KeyError k) => allow = false ∧ k ∈ ks ∧ m !! k = None
    | Raise TypeError => False
    | Raise (Delegated _) => True
    end.
Proof.
  intros Hbody. induction ks as [|k0 ks IH]; intros σ m Hd.
  { simpl. right. by intros k ?%elem_of_nil. }
  destruct (m !! k0) as [v|] eqn:Hk.
  - rewrite (for_key_in_present _ _ _ _ _ _ m) by eauto.
    destruct (Hbody k0 (yield_key k0 σ).2 m Hd (mk_is_Some _ _ Hk)) as (m' & Hd' & Hdom & Hres).
    destruct (body k0 _) as [[[]|e] σ1]; simpl in *.
    + specialize (IH σ1 m' Hd').
      assert (Hsame : ∀ k, m' !! k = None ↔ m !! k = None)
        by (intros k; by rewrite <- !not_elem_of_dom, Hdom).
      assert (Hsome : ∀ k, is_Some (m' !! k) ↔ is_Some (m !! k))
        by (intros k; by rewrite <- !elem_of_dom, Hdom).
      destruct (for_key_in _ _ _ _ _).1 as [[]|[k'| |e]]; [| |done|done].
      * destruct IH as [?|IH]; [by left|right].
        intros k [->|Hin]%elem_of_cons; [eauto|]. by apply Hsome, IH.
      * destruct IH as (? & ? & ?). split_and!; [done|by right|by apply Hsame].
    + by destruct e.
  - rewrite (for_key_in_absent _ _ _ _ _ _ m) by done.
    destruct allow.
    + specialize (IH σ m Hd).
      destruct (for_key_in _ _ _ _ _).1 as [[]|[k'| |e]]; [by left| |done|done].
      by destruct IH.
    + simpl. split_and!; [done|by left|done].
Qed.

(** C2, as the code has it.  Let the caller's mapping [rec] miss the
    configured key [k].
    - With [allow_missing_keys = False] the call never returns.  It raises the
      missing-key error of a missing configured key, unless a service error
      came first; and if the keys [ks1] before [k] are processed without
      error, the call raises the missing-key error for [k].
    - With [allow_missing_keys = True] the call raises no missing-key error,
      and in the dictionary it returns [k] is still absent.
    The same holds for [LoadImaged] and [SaveImaged]. *)
Theorem missing_key_policy (rec : gmap Key Value) k data σ :
  heap σ !! data = Some rec → rec !! k = None →
  (* allow_missing_keys = False *)
  (∀ ks ldr reader, k ∈ ks →
     match (LoadImaged_call (mkLoadImaged (mkMapTransform ks false) ldr) data reader σ).1 with
     | Raise (KeyError k') => k' ∈ ks ∧ rec !! k' = None
     | Raise (Delegated _) => True
     | _ => False
     end)
  ∧ (∀ ks svr, k ∈ ks →
     match (SaveImaged_call (mkSaveImaged (mkMapTransform ks false) svr) data σ).1 with
     | Raise (KeyError k') => k' ∈ ks ∧ rec !! k' = None
     | Raise (Delegated _) => True
     | _ => False
     end)
  ∧ (∀ ks1 ks2 ldr reader d σ1,
     LoadImaged_call (mkLoadImaged (mkMapTransform ks1 false) ldr) data reader σ = (Ok d, σ1) →
     LoadImaged_call (mkLoadImaged (mkMapTransform (ks1 ++ k :: ks2) false) ldr) data reader σ
       = (Raise (KeyError k), σ1))
  ∧ (∀ ks1 ks2 svr d σ1,
     SaveImaged_call (mkSaveImaged (mkMapTransform ks1 false) svr) data σ = (Ok d, σ1) →
     SaveImaged_call (mkSaveImaged (mkMapTransform (ks1 ++ k :: ks2) false) svr) data σ
       = (Raise (KeyError k), σ1))
  (* allow_missing_keys = True *)
  ∧ (∀ ks ldr reader,
     match LoadImaged_call (mkLoadImaged (mkMapTransform ks true) ldr) data reader σ with
     | (Ok d, σ') => ∃ m', heap σ' !! d = Some m' ∧ m' !! k = None
     | (Raise (Delegated _), _) => True
     | _ => False
     end)
  ∧ (∀ ks svr,
     match SaveImaged_call (mkSaveImaged (mkMapTransform ks true) svr) data σ with
     | (Ok d, σ') => ∃ m', heap σ' !! d = Some m' ∧ m' !! k = None
     | (Raise (Delegated _), _) => True
     | _ => False
     end).
Proof.
  intros Hd Hk.
  assert (Hload : ∀ allow ks ldr reader,
    ∃ m', heap (for_key_in allow ks (fresh (dom (heap σ)))
                  (LoadImaged_body (mkLoadImaged (mkMapTransform ks allow) ldr)
                     (fresh (dom (heap σ))) reader) (after_copy σ rec)).2
            !! fresh (dom (heap σ)) = Some m' ∧ m' !! k = None).
  { intros allow ks ldr reader.
    destruct (load_loop_heap (mkLoadImaged (mkMapTransform ks allow) ldr) allow ks
      (fresh (dom (heap σ))) reader (after_copy σ rec) rec (after_copy_lookup σ rec))
      as (m' & Hh & Hdom & _).
    exists m'. rewrite Hh, lookup_insert_eq. split; [done|].
    by rewrite <- not_elem_of_dom, Hdom, not_elem_of_dom. }
  assert (Hsave : ∀ allow ks svr,
    heap (for_key_in allow ks (fresh (dom (heap σ)))
            (SaveImaged_body (mkSaveImaged (mkMapTransform ks allow) svr)
               (fresh (dom (heap σ)))) (after_copy σ rec)).2
      !! fresh (dom (heap σ)) = Some rec).
  { intros. rewrite save_loop_heap. apply after_copy_lookup. }
  split_and!.
  - intros ks ldr reader Hin. rewrite (LoadImaged_call_run _ _ _ _ rec Hd). simpl.
    pose proof (for_key_in_outcome false _ _ ks
      (LoadImaged_body_guarded (mkLoadImaged (mkMapTransform ks false) ldr) _ reader)
      _ _ (after_copy_lookup σ rec)) as Hout.
    destruct (for_key_in _ _ _ _ _) as [[[]|[k'| |e]] τ]; simpl in *; [|tauto|done..].
    destruct Hout as [?|Hall]; [done|]. specialize (Hall k Hin).
    rewrite Hk in Hall. by destruct Hall.
  - intros ks svr Hin. rewrite (SaveImaged_call_run _ _ _ rec Hd). simpl.
    pose proof (for_key_in_outcome false _ _ ks
      (SaveImaged_body_guarded (mkSaveImaged (mkMapTransform ks false) svr) _)
      _ _ (after_copy_lookup σ rec)) as Hout.
    destruct (for_key_in _ _ _ _ _) as [[[]|[k'| |e]] τ]; simpl in *; [|tauto|done..].
    destruct Hout as [?|Hall]; [done|]. specialize (Hall k Hin).
    rewrite Hk in Hall. by destruct Hall.
  - intros ks1 ks2 ldr reader d σ1 Hpre.
    rewrite (LoadImaged_call_prefix _ _ _ _ _ _ _ _ _ Hpre).
    rewrite (LoadImaged_call_run _ _ _ _ rec Hd) in Hpre. simpl in Hpre.
    destruct (Hload false ks1 ldr reader) as (m' & Hm' & Hk').
    destruct (for_key_in _ _ _ _ _) as [[[]|e] τ]; [|done].
    injection Hpre as <- <-. simpl in Hm'.
    by rewrite (for_key_in_absent _ _ _ _ _ _ m').
  - intros ks1 ks2 svr d σ1 Hpre.
    rewrite (SaveImaged_call_prefix _ _ _ _ _ _ _ _ Hpre).
    rewrite (SaveImaged_call_run _ _ _ rec Hd) in Hpre. simpl in Hpre.
    pose proof (Hsave false ks1 svr) as Hm'.
    destruct (for_key_in _ _ _ _ _) as [[[]|e] τ]; [|done].
    injection Hpre as <- <-. simpl in Hm'.
    by rewrite (for_key_in_absent _ _ _ _ _ _ rec).
  - intros ks ldr reader. rewrite (LoadImaged_call_run _ _ _ _ rec Hd). simpl.
    pose proof (for_key_in_outcome true _ _ ks
      (LoadImaged_body_guarded (mkLoadImaged (mkMapTransform ks true) ldr) _ reader)
      _ _ (after_copy_lookup σ rec)) as Hout.
    pose proof (Hload true ks ldr reader) as Hm'.
    destruct (for_key_in _ _ _ _ _) as [[[]|[k'| |e]] τ]; simpl in *;
      [done|by destruct Hout|done..].
  - intros ks svr. rewrite (SaveImaged_call_run _ _ _ rec Hd). simpl.
    pose proof (for_key_in_outcome true _ _ ks
      (SaveImaged_body_guarded (mkSaveImaged (mkMapTransform ks true) svr) _)
      _ _ (after_copy_lookup σ rec)) as Hout.
    pose proof (Hsave true ks svr) as Hm'.
    destruct (for_key_in _ _ _ _ _) as [[[]|[k'| |e]] τ]; simpl in *;
      [by eauto|by destruct Hout|done..].
Qed.

(** ** The loaded values *)

Lemma omap_lookup_cons (m : gmap Key Value) (k : Key) (ks : list Key) :
  omap (m !!.) (k :: ks)
  = match m !! k with Some v => v :: omap (m !!.) ks | None => omap (m !!.) ks end.
Proof. done. Qed.

Lemma omap_lookup_ext (m1 m2 : gmap Key Value) (ks : list Key) :
  (∀ k, k ∈ ks → m1 !! k = m2 !! k) → omap (m1 !!.) ks = omap (m2 !!.) ks.
Proof.
  induction ks as [|k ks IH]; intros Heq; [done|].
  rewrite !omap_lookup_cons, (Heq k) by left. rewrite IH; [done|].
  intros k' Hin. apply Heq. by right.
Qed.

(** The load loop over distinct keys that are all in the dictionary does
    what invoking the service directly on the values does, and stores the
    i-th answer under the i-th key. *)
Lemma load_loop_direct self allow reader d ks : ∀ σ m,
  heap σ !! d = Some m → NoDup ks → (∀ k, k ∈ ks → is_Some (m !! k)) →
  match direct_loads (_loader self) reader (omap (m !!.) ks) (world σ) with
  | (inr rs, w') =>
      ∃ σ' m', for_key_in allow ks d (LoadImaged_body self d reader) σ = (Ok (), σ')
               ∧ world σ' = w' ∧ heap σ' !! d = Some m'
               ∧ ∀ i k, ks !! i = Some k → m' !! k = rs !! i
  | (inl e, w') =>
      ∃ σ', for_key_in allow ks d (LoadImaged_body self d reader) σ
              = (Raise (Delegated e), σ')
            ∧ world σ' = w'
  end.
Proof.
  induction ks as [|k ks IH]; intros σ m Hd Hnd Hall.
  { simpl. by exists σ, m. }
  apply NoDup_cons in Hnd as [Hk Hnd].
  destruct (Hall k) as [v Hv]; [by left|].
  rewrite omap_lookup_cons, Hv.
  rewrite (for_key_in_present _ _ _ _ _ _ m) by eauto.
  rewrite (LoadImaged_body_run _ _ _ _ _ m v) by done. simpl.
  destruct (LoadImage_call _ _ _ _) as [[e|r] w1]; [by eauto|].
  set (σ1 := mkState _ w1 _).
  assert (Hd1 : heap σ1 !! d = Some (<[k := r]> m)) by apply lookup_insert_eq.
  rewrite <- (omap_lookup_ext (<[k := r]> m) m)
    by (intros k' Hin; apply lookup_insert_ne; by intros ->).
  specialize (IH σ1 (<[k := r]> m) Hd1 Hnd).
  destruct (load_loop_heap self allow ks d reader σ1 _ Hd1) as (m'' & Hh & _ & Hout).
  change (world σ1) with w1 in IH.
  destruct (direct_loads _ _ _ w1) as [[e|rs] w2].
  - apply IH. intros k' Hin. rewrite lookup_insert_ne; [apply Hall; by right|].
    by intros ->.
  - destruct IH as (σ' & m' & Hrun & Hw & Hm' & Hvals).
    { intros k' Hin. rewrite lookup_insert_ne; [apply Hall; by right|]. by intros ->. }
    exists σ', m'. split_and!; try done.
    intros [|i] k' Hi; simpl in *.
    + injection Hi as <-. rewrite Hrun in Hh. simpl in Hh.
      rewrite Hh, lookup_insert_eq in Hm'. injection Hm' as <-.
      rewrite Hout by done. apply lookup_insert_eq.
    + by apply Hvals.
Qed.

(** C1, as the code has it.  Let the record contain every configured key and
    let the configured keys be pairwise distinct.  Invoke the load service
    directly on the record's original values, in configured order.  If those
    invocations succeed, the call returns a dictionary whose value at the i-th
    configured key is the i-th answer; if one of them raises, the call raises
    the same error.  The services are left in the same state either way. *)
Theorem LoadImaged_call_loads_each_key self data reader σ rec :
  heap σ !! data = Some rec →
  NoDup (keys (LoadImaged_base self)) →
  (∀ k, k ∈ keys (LoadImaged_base self) → is_Some (rec !! k)) →
  match direct_loads (_loader self) reader
          (omap (rec !!.) (keys (LoadImaged_base self))) (world σ) with
  | (inr rs, w') =>
      ∃ d σ' m', LoadImaged_call self data reader σ = (Ok d, σ')
                 ∧ world σ' = w' ∧ heap σ' !! d = Some m'
                 ∧ ∀ i k, keys (LoadImaged_base self) !! i = Some k → m' !! k = rs !! i
  | (inl e, w') =>
      ∃ σ', LoadImaged_call self data reader σ = (Raise (Delegated e), σ')
            ∧ world σ' = w'
  end.
Proof.
  intros Hd Hnd Hall. rewrite (LoadImaged_call_run _ _ _ _ rec Hd).
  pose proof (load_loop_direct self (allow_missing_keys (LoadImaged_base self)) reader
    (fresh (dom (heap σ))) (keys (LoadImaged_base self)) (after_copy σ rec) rec
    (after_copy_lookup σ rec) Hnd Hall) as Hloop.
  change (world (after_copy σ rec)) with (world σ) in Hloop.
  destruct (direct_loads _ _ _ _) as [[e|rs] w'].
  - destruct Hloop as (σ' & -> & Hw). by exists σ'.
  - destruct Hloop as (σ' & m' & -> & Hw & Hm' & Hvals).
    by exists (fresh (dom (heap σ))), σ', m'.
Qed.

(** ** Calling again *)

Lemma LoadImaged_call_heap_mono self data reader σ :
  heap σ ⊆ heap (LoadImaged_call self data reader σ).2.
Proof.
  destruct (heap σ !! data) as [rec|] eqn:Hd.
  - rewrite (LoadImaged_call_run _ _ _ _ rec Hd).
    destruct (load_loop_heap self (allow_missing_keys (LoadImaged_base self))
      (keys (LoadImaged_base self)) (fresh (dom (heap σ))) reader (after_copy σ rec) rec
      (after_copy_lookup σ rec)) as (m' & Hl & _ & _).
    destruct (for_key_in _ _ _ _ _) as [[[]|e] τ]; simpl in *;
      rewrite Hl, insert_insert_eq; apply insert_subseteq, fresh_not_allocated.
  - by rewrite LoadImaged_call_not_mapping.
Qed.

Lemma SaveImaged_call_heap_mono self data σ :
  heap σ ⊆ heap (SaveImaged_call self data σ).2.
Proof.
  destruct (heap σ !! data) as [rec|] eqn:Hd.
  - rewrite (SaveImaged_call_run _ _ _ rec Hd).
    pose proof (save_loop_heap self (allow_missing_keys (SaveImaged_base self))
      (keys (SaveImaged_base self)) (fresh (dom (heap σ))) (after_copy σ rec)) as Hs.
    destruct (for_key_in _ _ _ _ _) as [[[]|e] τ]; simpl in *;
      rewrite Hs; apply insert_subseteq, fresh_not_allocated.
  - by rewrite SaveImaged_call_not_mapping.
Qed.

Lemma load_loop_world self allow reader d ks σ :
  loader_replays (_loader self) →
  load_answers_agree (_loader self) (world σ)
    (world (for_key_in allow ks d (LoadImaged_body self d reader) σ).2).
Proof.
  intros Hrep.
  apply (for_key_in_invariant (λ _ w, load_answers_agree (_loader self) (world σ) w));
    [|done].
  intros key τ m _ Hagree Hm [v Hv].
  rewrite (LoadImaged_body_run _ _ _ _ _ m v) by done.
  assert (Hnext : load_answers_agree (_loader self) (world σ)
            (LoadImage_call (_loader self) v reader (world τ)).2)
    by (intros img' reader'; rewrite Hrep; apply Hagree).
  by destruct (LoadImage_call _ v reader (world τ)) as [[e|r] w].
Qed.

Lemma save_loop_world self allow d ks σ :
  saver_replays (saver self) →
  save_answers_agree (saver self) (world σ)
    (world (for_key_in allow ks d (SaveImaged_body self d) σ).2).
Proof.
  intros Hrep.
  apply (for_key_in_invariant (λ _ w, save_answers_agree (saver self) (world σ) w));
    [|done].
  intros key τ m _ Hagree Hm [v Hv].
  rewrite (SaveImaged_body_run _ _ _ _ m v) by done.
  assert (Hnext : save_answers_agree (saver self) (world σ)
            (SaveImage_call (saver self) v (world τ)).2)
    by (intros img'; rewrite Hrep; apply Hagree).
  by destruct (SaveImage_call _ v (world τ)) as [[e|r] w].
Qed.

(** Two runs of the load loop on dictionaries with the same content, in
    worlds related by a relation under which the loader answers alike and
    which its invocations keep, end alike. *)
Lemma load_loop_simulation self allow reader ks (R : World → World → Prop) :
  (∀ w1 w2 img, R w1 w2 →
     (LoadImage_call (_loader self) img reader w1).1
       = (LoadImage_call (_loader self) img reader w2).1
     ∧ R (LoadImage_call (_loader self) img reader w1).2
         (LoadImage_call (_loader self) img reader w2).2) →
  ∀ d1 d2 σ1 σ2 m,
    heap σ1 !! d1 = Some m → heap σ2 !! d2 = Some m →
    R (world σ1) (world σ2) →
    (for_key_in allow ks d1 (LoadImaged_body self d1 reader) σ1).1
      = (for_key_in allow ks d2 (LoadImaged_body self d2 reader) σ2).1
    ∧ heap (for_key_in allow ks d1 (LoadImaged_body self d1 reader) σ1).2 !! d1
      = heap (for_key_in allow ks d2 (LoadImaged_body self d2 reader) σ2).2 !! d2.
Proof.
  intros HR. induction ks as [|k ks IH]; intros d1 d2 σ1 σ2 m H1 H2 Hw.
  { simpl. by rewrite H1, H2. }
  destruct (m !! k) as [v|] eqn:Hk.
  - rewrite !(for_key_in_present _ _ _ _ _ _ m) by eauto.
    rewrite !(LoadImaged_body_run _ _ _ _ _ m v) by done. simpl.
    destruct (HR _ _ v Hw) as [Hans Hnext].
    destruct (LoadImage_call _ v reader (world σ1)) as [a1 w1].
    destruct (LoadImage_call _ v reader (world σ2)) as [a2 w2].
    simpl in Hans, Hnext. subst a2. destruct a1 as [e|r]; simpl; [by rewrite H1, H2|].
    by apply (IH _ _ _ _ (<[k := r]> m)); [apply lookup_insert_eq..|].
  - rewrite !(for_key_in_absent _ _ _ _ _ _ m) by done.
    destruct allow; [by apply (IH _ _ _ _ m)|]. simpl. by rewrite H1, H2.
Qed.

Lemma save_loop_simulation self allow ks (R : World → World → Prop) :
  (∀ w1 w2 img, R w1 w2 →
     (SaveImage_call (saver self) img w1).1 = (SaveImage_call (saver self) img w2).1
     ∧ R (SaveImage_call (saver self) img w1).2 (SaveImage_call (saver self) img w2).2) →
  ∀ d1 d2 σ1 σ2 m,
    heap σ1 !! d1 = Some m → heap σ2 !! d2 = Some m →
    R (world σ1) (world σ2) →
    (for_key_in allow ks d1 (SaveImaged_body self d1) σ1).1
      = (for_key_in allow ks d2 (SaveImaged_body self d2) σ2).1.
Proof.
  intros HR. induction ks as [|k ks IH]; intros d1 d2 σ1 σ2 m H1 H2 Hw; [done|].
  destruct (m !! k) as [v|] eqn:Hk.
  - rewrite !(for_key_in_present _ _ _ _ _ _ m) by eauto.
    rewrite !(SaveImaged_body_run _ _ _ _ m v) by done. simpl.
    destruct (HR _ _ v Hw) as [Hans Hnext].
    destruct (SaveImage_call _ v (world σ1)) as [a1 w1].
    destruct (SaveImage_call _ v (world σ2)) as [a2 w2].
    simpl in Hans, Hnext. subst a2. destruct a1 as [e|r]; simpl; [done|].
    by apply (IH _ _ _ _ m).
  - rewrite !(for_key_in_absent _ _ _ _ _ _ m) by done.
    destruct allow; [by apply (IH _ _ _ _ m)|done].
Qed.

(** What the caller gets from a call is decided by the content of the
    mapping and by the answers of the service. *)
Lemma LoadImaged_call_simulation self reader (R : World → World → Prop) :
  (∀ w1 w2 img, R w1 w2 →
     (LoadImage_call (_loader self) img reader w1).1
       = (LoadImage_call (_loader self) img reader w2).1
     ∧ R (LoadImage_call (_loader self) img reader w1).2
         (LoadImage_call (_loader self) img reader w2).2) →
  ∀ data1 data2 σ1 σ2 rec,
    heap σ1 !! data1 = Some rec → heap σ2 !! data2 = Some rec →
    R (world σ1) (world σ2) →
    result_of (LoadImaged_call self data1 reader σ1)
    = result_of (LoadImaged_call self data2 reader σ2).
Proof.
  intros HR data1 data2 σ1 σ2 rec H1 H2 Hw.
  rewrite (LoadImaged_call_run _ _ _ _ rec H1), (LoadImaged_call_run _ _ _ _ rec H2).
  destruct (load_loop_simulation self (allow_missing_keys (LoadImaged_base self)) reader
    (keys (LoadImaged_base self)) R HR
    (fresh (dom (heap σ1))) (fresh (dom (heap σ2))) (after_copy σ1 rec) (after_copy σ2 rec)
    rec (after_copy_lookup σ1 rec) (after_copy_lookup σ2 rec) Hw) as [Hout Hcontent].
  destruct (for_key_in _ _ _ _ (after_copy σ1 rec)) as [[[]|e1] τ1];
    destruct (for_key_in _ _ _ _ (after_copy σ2 rec)) as [[[]|e2] τ2];
    simpl in *; congruence.
Qed.

Lemma SaveImaged_call_simulation self (R : World → World → Prop) :
  (∀ w1 w2 img, R w1 w2 →
     (SaveImage_call (saver self) img w1).1 = (SaveImage_call (saver self) img w2).1
     ∧ R (SaveImage_call (saver self) img w1).2 (SaveImage_call (saver self) img w2).2) →
  ∀ data1 data2 σ1 σ2 rec,
    heap σ1 !! data1 = Some rec → heap σ2 !! data2 = Some rec →
    R (world σ1) (world σ2) →
    result_of (SaveImaged_call self data1 σ1) = result_of (SaveImaged_call self data2 σ2).
Proof.
  intros HR data1 data2 σ1 σ2 rec H1 H2 Hw.
  rewrite (SaveImaged_call_run _ _ _ rec H1), (SaveImaged_call_run _ _ _ rec H2).
  pose proof (save_loop_simulation self (allow_missing_keys (SaveImaged_base self))
    (keys (SaveImaged_base self)) R HR
    (fresh (dom (heap σ1))) (fresh (dom (heap σ2))) (after_copy σ1 rec) (after_copy σ2 rec)
    rec (after_copy_lookup σ1 rec) (after_copy_lookup σ2 rec) Hw) as Hout.
  pose proof (save_loop_heap self (allow_missing_keys (SaveImaged_base self))
    (keys (SaveImaged_base self)) (fresh (dom (heap σ1))) (after_copy σ1 rec)) as Hh1.
  pose proof (save_loop_heap self (allow_missing_keys (SaveImaged_base self))
    (keys (SaveImaged_base self)) (fresh (dom (heap σ2))) (after_copy σ2 rec)) as Hh2.
  destruct (for_key_in _ _ _ _ (after_copy σ1 rec)) as [[[]|e1] τ1];
    destruct (for_key_in _ _ _ _ (after_copy σ2 rec)) as [[[]|e2] τ2];
    simpl in *; try congruence.
  by rewrite Hh1, Hh2, !lookup_insert_eq.
Qed.

(** C8, as the code has it.  The adapter carries nothing over from one call
    to the next; what a repeated call gives depends on the service.
    - What a call gives the caller (a dictionary with some content, or an
      exception) is decided by the adapter, the content of the mapping, the
      reader and the state of the service: two calls on mappings with the
      same content, started with the service in the same state, give the
      same, wherever the mappings live and whatever happened before.
    - Let the wrapped service replay, that is, answer a request the same way
      whatever it has served before.  Then a second call of the same adapter
      on the same mapping, right after the first, gives the caller what the
      first call gave. *)
Theorem repeated_call_same_result (ld : LoadImaged) (sv : SaveImaged) data reader σ rec :
  heap σ !! data = Some rec →
  (∀ data' σ', heap σ' !! data' = Some rec → world σ' = world σ →
     result_of (LoadImaged_call ld data' reader σ')
     = result_of (LoadImaged_call ld data reader σ))
  ∧ (∀ data' σ', heap σ' !! data' = Some rec → world σ' = world σ →
     result_of (SaveImaged_call sv data' σ') = result_of (SaveImaged_call sv data σ))
  ∧ (loader_replays (_loader ld) →
     result_of (LoadImaged_call ld data reader (LoadImaged_call ld data reader σ).2)
     = result_of (LoadImaged_call ld data reader σ))
  ∧ (saver_replays (saver sv) →
     result_of (SaveImaged_call sv data (SaveImaged_call sv data σ).2)
     = result_of (SaveImaged_call sv data σ)).
Proof.
  intros Hd. split_and!.
  - intros data' σ' Hd' Hw.
    apply (LoadImaged_call_simulation ld reader eq) with rec; [|done..].
    by intros w1 w2 img ->.
  - intros data' σ' Hd' Hw.
    apply (SaveImaged_call_simulation sv eq) with rec; [|done..].
    by intros w1 w2 img ->.
  - intros Hrep.
    apply (LoadImaged_call_simulation ld reader (load_answers_agree (_loader ld))) with rec.
    + intros w1 w2 img Hagree. split; [apply Hagree|].
      intros img' reader'. rewrite !Hrep. apply Hagree.
    + eapply lookup_weaken; [exact Hd|apply LoadImaged_call_heap_mono].
    + done.
    + rewrite (LoadImaged_call_run _ _ _ _ rec Hd).
      pose proof (load_loop_world ld (allow_missing_keys (LoadImaged_base ld)) reader
        (fresh (dom (heap σ))) (keys (LoadImaged_base ld)) (after_copy σ rec) Hrep) as Ha.
      destruct (for_key_in _ _ _ _ _) as [[[]|e] τ]; intros img rd; symmetry; apply Ha.
  - intros Hrep.
    apply (SaveImaged_call_simulation sv (save_answers_agree (saver sv))) with rec.
    + intros w1 w2 img Hagree. split; [apply Hagree|].
      intros img'. rewrite !Hrep. apply Hagree.
    + eapply lookup_weaken; [exact Hd|apply SaveImaged_call_heap_mono].
    + done.
    + rewrite (SaveImaged_call_run _ _ _ rec Hd).
      pose proof (save_loop_world sv (allow_missing_keys (SaveImaged_base sv))
        (fresh (dom (heap σ))) (keys (SaveImaged_base sv)) (after_copy σ rec) Hrep) as Ha.
      destruct (for_key_in _ _ _ _ _) as [[[]|e] τ]; intros img; symmetry; apply Ha.
Qed.

(** ** Construction *)

(** C10.  The deprecated constructor parameters do not reach the wrapped
    service: two [LoadImaged] objects constructed with different [meta_keys],
    [meta_key_postfix], [overwriting] or [image_only] and otherwise equal
    arguments are the same adapter and their calls do the same on every
    input; likewise two [SaveImaged] objects that differ in [meta_keys] or
    [meta_key_postfix]. *)
Theorem deprecated_parameters_do_not_matter :
  (∀ ks reader dtype ecf allow args meta_keys meta_keys' postfix postfix'
     overwriting overwriting' image_only image_only' data rd σ,
     LoadImaged_call
       (LoadImaged_init ks reader dtype meta_keys postfix overwriting image_only
          ecf allow args).2 data rd σ
     = LoadImaged_call
         (LoadImaged_init ks reader dtype meta_keys' postfix' overwriting' image_only'
            ecf allow args).2 data rd σ)
  ∧ (∀ ks meta_keys meta_keys' postfix postfix' output_dir output_postfix output_ext
       resample mode padding_mode scale dtype output_dtype allow squeeze_end_dims
       data_root_dir separate_folder print_log output_format writer data σ,
     SaveImaged_call
       (SaveImaged_init ks meta_keys postfix output_dir output_postfix output_ext
          resample mode padding_mode scale dtype output_dtype allow squeeze_end_dims
          data_root_dir separate_folder print_log output_format writer).2 data σ
     = SaveImaged_call
         (SaveImaged_init ks meta_keys' postfix' output_dir output_postfix output_ext
            resample mode padding_mode scale dtype output_dtype allow squeeze_end_dims
            data_root_dir separate_folder print_log output_format writer).2 data σ).
Proof. split; reflexivity. Qed.

(** ** Values after a completed load loop *)

(** After a load loop over distinct keys has completed, every configured key
    of the dictionary holds an answer of the loader to the value it held
    before. *)
Lemma load_loop_values self allow reader d ks : ∀ σ m σ',
  heap σ !! d = Some m → NoDup ks →
  for_key_in allow ks d (LoadImaged_body self d reader) σ = (Ok (), σ') →
  ∃ m', heap σ' !! d = Some m'
        ∧ ∀ k v, k ∈ ks → m !! k = Some v →
            ∃ w w' x, LoadImage_call (_loader self) v reader w = (inr x, w')
                      ∧ m' !! k = Some x.
Proof.
  induction ks as [|k ks IH]; intros σ m σ' Hd Hnd Hrun.
  { injection Hrun as <-. exists m. split; [done|]. by intros k v ?%elem_of_nil. }
  apply NoDup_cons in Hnd as [Hk Hnd].
  destruct (m !! k) as [v|] eqn:Hv.
  - rewrite (for_key_in_present _ _ _ _ _ _ m) in Hrun by eauto.
    rewrite (LoadImaged_body_run _ _ _ _ _ m v) in Hrun by done. simpl in Hrun.
    destruct (LoadImage_call _ v reader (world σ)) as [[e|r] w1] eqn:Hcall; [done|].
    set (σ1 := mkState _ w1 _) in Hrun.
    assert (Hd1 : heap σ1 !! d = Some (<[k := r]> m)) by apply lookup_insert_eq.
    destruct (IH σ1 _ σ' Hd1 Hnd Hrun) as (m' & Hm' & Hvals).
    destruct (load_loop_heap self allow ks d reader σ1 _ Hd1) as (m'' & Hh & _ & Hout).
    rewrite Hrun in Hh. simpl in Hh. rewrite Hh, lookup_insert_eq in Hm'.
    injection Hm' as <-.
    exists m''. split; [by rewrite Hh, lookup_insert_eq|].
    intros k' v' [->|Hin]%elem_of_cons Hv'.
    + assert (v' = v) as -> by congruence.
      exists (world σ), w1, r. split; [done|].
      rewrite Hout by done. apply lookup_insert_eq.
    + apply Hvals; [done|]. rewrite lookup_insert_ne; [done|]. by intros ->.
  - rewrite (for_key_in_absent _ _ _ _ _ _ m) in Hrun by done.
    destruct allow; [|done].
    destruct (IH σ m σ' Hd Hnd Hrun) as (m' & Hm' & Hvals).
    exists m'. split; [done|].
    intros k' v' [->|Hin]%elem_of_cons Hv'; [congruence|by apply Hvals].
Qed.

End Theory.

(** * Registering a reader *)

Lemma Registry_select_registered readers r img :
  Registry.verify_suffix r img = true →
  Registry.select (Registry.register readers r) img = Some r.
Proof.
  intros Hr. unfold Registry.select, Registry.register.
  rewrite rev_unit. simpl. by rewrite Hr.
Qed.

(** C9.  Register a reader [r] on a [LoadImaged] whose loader already has
    any candidate readers, then call it without a reader override.
    - Every invocation of the loader on an input that [r] accepts is answered
      by [r]: the newly registered reader comes before the readers registered
      earlier.
    - So, with pairwise distinct configured keys, for every configured key
      whose original value [r] accepts, the returned dictionary holds what
      [r] read from that value. *)
Theorem registered_reader_is_preferred (self : @LoadImaged demo) (r : Registry.Reader) :
  (∀ img w, Registry.verify_suffix r img = true →
     LoadImage_call (_loader (LoadImaged_register self r)) img None w
     = (Registry.read r img, w))
  ∧ (∀ data σ rec d σ',
     heap σ !! data = Some rec →
     NoDup (keys (LoadImaged_base self)) →
     (∀ k v, k ∈ keys (LoadImaged_base self) → rec !! k = Some v →
        Registry.verify_suffix r v = true) →
     LoadImaged_call (LoadImaged_register self r) data None σ = (Ok d, σ') →
     ∃ m', heap σ' !! d = Some m'
           ∧ ∀ k v, k ∈ keys (LoadImaged_base self) → rec !! k = Some v →
               ∃ x, Registry.read r v = inr x ∧ m' !! k = Some x).
Proof.
  split.
  - intros img w Hr. simpl. unfold Registry.call.
    by rewrite (Registry_select_registered _ _ _ Hr).
  - intros data σ rec d σ' Hd Hnd Hsup Hcall.
    rewrite (LoadImaged_call_run _ _ _ _ rec Hd) in Hcall.
    destruct (for_key_in _ _ _ _ _) as [[[]|e] τ] eqn:Hloop; [|done].
    injection Hcall as <- <-.
    destruct (load_loop_values _ _ _ _ _ _ _ _ (after_copy_lookup σ rec) Hnd Hloop)
      as (m' & Hm' & Hvals).
    exists m'. split; [done|]. intros k v Hin Hv.
    destruct (Hvals k v Hin Hv) as (w & w' & x & Hans & Hx).
    exists x. split; [|done].
    simpl in Hans. unfold Registry.call in Hans.
    rewrite (Registry_select_registered _ _ _ (Hsup k v Hin Hv)) in Hans.
    by injection Hans as -> _.
Qed.

(** * The theorems at concrete inputs *)

Lemma SaveImaged_call_same_content_witness :
  heap (SaveImaged_call (demo_saver ["seg"] false ".nii.gz") 1 (store_of demo img_seg [])).2
    !! 2%positive = Some img_seg.
Proof.
  apply (SaveImaged_call_same_content (demo_saver ["seg"] false ".nii.gz") 1
           (store_of demo img_seg []) img_seg 2).
  - vm_compute; reflexivity.
  - vm_compute; reflexivity.
Defined.

Lemma LoadImaged_call_other_keys_witness :
  ∃ m', heap (LoadImaged_call (demo_loader ["img"] false) 1 None
                (store_of demo img_seg [])).2 !! 2%positive = Some m'
        ∧ m' !! "seg"%string = img_seg !! "seg"%string.
Proof.
  apply (LoadImaged_call_other_keys (demo_loader ["img"] false) 1 None
           (store_of demo img_seg []) img_seg 2).
  - vm_compute; reflexivity.
  - vm_compute. intros H. apply list_elem_of_In in H. simpl in H. intuition discriminate.
  - vm_compute; reflexivity.
Defined.

Lemma LoadImaged_call_loads_each_key_witness :
  match direct_loads (S := demo) demo_readers None
          (omap (img_seg !!.) ["img"; "seg"]%string) [] with
  | (inr rs, w') =>
      ∃ d σ' m', LoadImaged_call (demo_loader ["img"; "seg"] false) 1 None
                   (store_of demo img_seg []) = (Ok d, σ')
                 ∧ world σ' = w' ∧ heap σ' !! d = Some m'
                 ∧ ∀ i k, ["img"; "seg"]%string !! i = Some k → m' !! k = rs !! i
  | (inl e, w') =>
      ∃ σ', LoadImaged_call (demo_loader ["img"; "seg"] false) 1 None
              (store_of demo img_seg []) = (Raise (Delegated e), σ')
            ∧ world σ' = w'
  end.
Proof.
  apply (LoadImaged_call_loads_each_key (demo_loader ["img"; "seg"] false) 1 None
           (store_of demo img_seg []) img_seg).
  - vm_compute; reflexivity.
  - apply NoDup_cons. split; [|apply NoDup_singleton].
    intros H%list_elem_of_In. simpl in H. intuition discriminate.
  - intros k Hk. apply list_elem_of_In in Hk. simpl in Hk.
    destruct Hk as [<-|[<-|[]]]; vm_compute; eauto.
Defined.

(** C1 as stated fails when a key is configured twice: the second round
    loads what the first round stored. *)
Lemma LoadImaged_call_repeated_key :
  dicom_img !! "img"%string = Some "scan.dcm"%string
  ∧ (LoadImaged_call (demo_loader ["img"; "img"] false) 1 None
       (store_of demo dicom_img [])).1 = Ok 2%positive
  ∧ heap (LoadImaged_call (demo_loader ["img"; "img"] false) 1 None
            (store_of demo dicom_img [])).2 !! 2%positive
    = Some {[ "img"%string := "itk(itk(scan.dcm))"%string ]}
  ∧ (LoadImage_call (Services := demo) demo_readers "scan.dcm"%string None []).1
    = inr "itk(scan.dcm)"%string
  ∧ "itk(itk(scan.dcm))"%string ≠ "itk(scan.dcm)"%string.
Proof. split_and!; [vm_compute; reflexivity..|discriminate]. Qed.

(** C2 as stated fails when the service raises for a key that comes before
    the missing one: the call raises that error, whatever the flag. *)
Lemma missing_key_after_failing_key :
  lost_img !! "seg"%string = None
  ∧ (LoadImaged_call (demo_loader ["img"; "seg"] false) 1 None
       (store_of demo lost_img [])).1 = Raise (Delegated (S := demo) "file not found"%string)
  ∧ (LoadImaged_call (demo_loader ["img"; "seg"] true) 1 None
       (store_of demo lost_img [])).1 = Raise (Delegated (S := demo) "file not found"%string).
Proof. split_and!; vm_compute; reflexivity. Qed.

Lemma missing_key_policy_witness :
  LoadImaged_call (demo_loader ["img"; "seg"] false) 1 None (store_of demo img_only [])
  = (Raise (KeyError (S := demo) "seg"),
     (LoadImaged_call (demo_loader ["img"] false) 1 None (store_of demo img_only [])).2)
  ∧ ∃ m', heap (SaveImaged_call (demo_saver ["img"; "seg"] true ".nii.gz") 1
                  (store_of demo img_only [])).2 !! 2%positive = Some m'
          ∧ m' !! "seg"%string = None.
Proof.
  destruct (missing_key_policy (S := demo) img_only "seg"%string 1
              (store_of demo img_only []))
    as (_ & _ & Hfirst & _ & _ & Hallow); [vm_compute; reflexivity..|].
  split.
  - apply (Hfirst ["img"%string] [] demo_readers None 2%positive).
    vm_compute; reflexivity.
  - specialize (Hallow ["img"; "seg"]%string (Storage.mkSaver "/out" "pred" ".nii.gz")).
    exact Hallow.
Defined.

Lemma service_error_aborts_call_witness :
  (let σ1 := (LoadImaged_call (demo_loader ["seg"] false) 1 None
                (store_of demo lost_img_seg [])).2 in
   LoadImaged_call (demo_loader ["seg"; "img"] false) 1 None (store_of demo lost_img_seg [])
   = (Raise (Delegated (S := demo) "file not found"%string),
      mkState (heap σ1) []
        (trace σ1 ++ [EvYield "img"; EvLoad (S := demo) "lost.nii"%string None])))
  ∧ (let σ1 := (SaveImaged_call (demo_saver [] false ".tiff") 1
                  (store_of demo img_seg [])).2 in
     SaveImaged_call (demo_saver ["seg"] false ".tiff") 1 (store_of demo img_seg [])
     = (Raise (Delegated (S := demo) "unsupported extension"%string),
        mkState (heap σ1) [] (trace σ1 ++ [EvYield "seg"; EvSave (S := demo) "mask.png"%string]))).
Proof.
  split.
  - apply (proj1 (service_error_aborts_call (S := demo) false ["seg"%string] "img"%string []
             1 (store_of demo lost_img_seg []) 2
             (LoadImaged_call (demo_loader ["seg"] false) 1 None
                (store_of demo lost_img_seg [])).2
             lost_img_seg_loaded "lost.nii"%string
             ltac:(vm_compute; reflexivity) ltac:(vm_compute; reflexivity))
           demo_readers None "file not found"%string []);
      vm_compute; reflexivity.
  - apply (proj2 (service_error_aborts_call (S := demo) false [] "seg"%string []
             1 (store_of demo img_seg []) 2
             (SaveImaged_call (demo_saver [] false ".tiff") 1 (store_of demo img_seg [])).2
             img_seg "mask.png"%string
             ltac:(vm_compute; reflexivity) ltac:(vm_compute; reflexivity))
           (Storage.mkSaver "/out" "pred" ".tiff") "unsupported extension"%string []);
      vm_compute; reflexivity.
Defined.

Lemma keys_processed_in_configured_order_witness :
  shape <$> trace (LoadImaged_call (demo_loader ["seg"; "img"; "aux"] true) 1 None
                     (store_of demo img_seg [])).2
  = [StYield "seg"; StInvoke; StAssign "seg"; StYield "img"; StInvoke; StAssign "img"]
  ∧ shape <$> trace (SaveImaged_call (demo_saver ["seg"; "img"] false ".nii.gz") 1
                       (store_of demo img_seg [])).2
    = [StYield "seg"; StInvoke; StYield "img"; StInvoke]
  ∧ heap (LoadImaged_call (demo_loader ["seg"; "img"; "aux"] true) 1 None
            (store_of demo img_seg [])).2 !! 2%positive
    = Some img_seg_loaded
  ∧ world (SaveImaged_call (demo_saver ["seg"; "img"] false ".nii.gz") 1
             (store_of demo img_seg [])).2
    = ["/out/mask.png_pred.nii.gz"; "/out/scan.nii_pred.nii.gz"]%string.
Proof.
  destruct (keys_processed_in_configured_order (S := demo)
              (demo_loader ["seg"; "img"; "aux"] true)
              (demo_saver ["seg"; "img"] false ".nii.gz") 1 None
              (store_of demo img_seg []) img_seg)
    as ((t1 & Ht1 & _ & Hok1) & (t2 & Ht2 & _ & Hok2)
        & (d1 & ps1 & _ & _ & Hh1 & _ & _ & Hout1)
        & (d2 & ps2 & _ & _ & _ & Hw2 & _ & Hout2)); [vm_compute; reflexivity|].
  assert (Hcall1 : (LoadImaged_call (demo_loader ["seg"; "img"; "aux"] true) 1 None
                      (store_of demo img_seg [])).1 = Ok 2%positive)
    by (vm_compute; reflexivity).
  assert (Hcall2 : (SaveImaged_call (demo_saver ["seg"; "img"] false ".nii.gz") 1
                      (store_of demo img_seg [])).1 = Ok 2%positive)
    by (vm_compute; reflexivity).
  rewrite Hcall1 in Hok1, Hout1. rewrite Hcall2 in Hok2, Hout2.
  destruct Hout1 as (Hd1 & Hps1 & _). destruct Hout2 as (_ & Hps2 & _).
  rewrite <- Hd1, Hps1 in Hh1. rewrite Hps2 in Hw2.
  split_and!.
  - rewrite Ht1. exact Hok1.
  - rewrite Ht2. exact Hok2.
  - etrans; [exact Hh1|]. vm_compute; reflexivity.
  - etrans; [exact Hw2|]. vm_compute; reflexivity.
Defined.

Lemma repeated_call_same_result_witness :
  result_of (LoadImaged_call (demo_loader ["img"] false) 1 None
               (LoadImaged_call (demo_loader ["img"] false) 1 None
                  (store_of demo img_seg [])).2)
  = result_of (LoadImaged_call (demo_loader ["img"] false) 1 None (store_of demo img_seg []))
  ∧ result_of (SaveImaged_call (demo_saver ["seg"] false ".nii.gz") 1
                 (SaveImaged_call (demo_saver ["seg"] false ".nii.gz") 1
                    (store_of demo img_seg [])).2)
    = result_of (SaveImaged_call (demo_saver ["seg"] false ".nii.gz") 1
                   (store_of demo img_seg [])).
Proof.
  destruct (repeated_call_same_result (S := demo) (demo_loader ["img"] false)
              (demo_saver ["seg"] false ".nii.gz") 1 None (store_of demo img_seg []) img_seg)
    as (_ & _ & Hload & Hsave); [vm_compute; reflexivity|].
  split.
  - apply Hload. intros img reader img' reader' w. reflexivity.
  - apply Hsave. intros img img' w. reflexivity.
Defined.

(** C8 as stated fails for a service with memory: the second call gets
    other answers than the first. *)
Lemma repeated_call_with_counting_service :
  result_of (LoadImaged_call counting_loader 1 None (store_of counting img_ten 0))
  = inr (Some img_ten)
  ∧ result_of (LoadImaged_call counting_loader 1 None
                 (LoadImaged_call counting_loader 1 None (store_of counting img_ten 0)).2)
    = inr (Some img_eleven)
  ∧ img_ten ≠ img_eleven
  ∧ result_of (SaveImaged_call counting_saver 1 (store_of counting img_ten 0))
    = inr (Some img_ten)
  ∧ result_of (SaveImaged_call counting_saver 1
                 (SaveImaged_call counting_saver 1 (store_of counting img_ten 0)).2)
    = inl (Delegated (S := counting) "file exists"%string).
Proof.
  split_and!.
  - vm_compute; reflexivity.
  - vm_compute; reflexivity.
  - intros Heq. apply (f_equal (λ m : gmap Key nat, m !! "img"%string)) in Heq.
    vm_compute in Heq. discriminate.
  - vm_compute; reflexivity.
  - vm_compute; reflexivity.
Qed.

Lemma registered_reader_is_preferred_witness :
  LoadImage_call (Services := demo)
    (_loader (LoadImaged_register (demo_loader ["img"] false) Registry.custom))
    "scan.nii"%string None []
  = (inr "custom(scan.nii)"%string, [])
  ∧ ∃ m', heap (LoadImaged_call
                  (LoadImaged_register (demo_loader ["img"] false) Registry.custom)
                  1 None (store_of demo img_seg [])).2 !! 2%positive = Some m'
          ∧ ∀ k v, k ∈ ["img"%string] → img_seg !! k = Some v →
              ∃ x, Registry.read Registry.custom v = inr x ∧ m' !! k = Some x.
Proof.
  destruct (registered_reader_is_preferred (demo_loader ["img"] false) Registry.custom)
    as [Hservice Hcall].
  split.
  - apply (Hservice "scan.nii"%string []). vm_compute; reflexivity.
  - apply (Hcall 1%positive (store_of demo img_seg []) img_seg 2%positive).
    + vm_compute; reflexivity.
    + apply NoDup_singleton.
    + intros k v Hk Hv. apply list_elem_of_In in Hk. simpl in Hk.
      destruct Hk as [<-|[]]. vm_compute in Hv. injection Hv as <-. reflexivity.
    + vm_compute; reflexivity.
Defined.

(** * Further properties of the two calls *)

Section More.
Context `{S : Services}.

(** ** Keys of the returned dictionary *)

(** X1.  [LoadImaged.__call__] reassigns entries, it never adds or removes
    one: the dictionary it returns has exactly the keys of the input. *)
Theorem LoadImaged_call_same_keys self data reader σ rec d σ' :
  heap σ !! data = Some rec →
  LoadImaged_call self data reader σ = (Ok d, σ') →
  ∃ m', heap σ' !! d = Some m' ∧ dom m' = dom rec.
Proof.
  intros Hd Hcall. rewrite (LoadImaged_call_run _ _ _ _ rec Hd) in Hcall.
  destruct (load_loop_heap self (allow_missing_keys (LoadImaged_base self))
    (keys (LoadImaged_base self)) (fresh (dom (heap σ))) reader (after_copy σ rec) rec
    (after_copy_lookup σ rec)) as (m' & Hl & Hdom & _).
  destruct (for_key_in _ _ _ _ _) as [[[]|e] τ]; [|done].
  injection Hcall as <- <-. exists m'. simpl in Hl.
  by rewrite Hl, lookup_insert_eq.
Qed.

(** ** How a call can end *)

(** X2.  A call on a mapping ends in one of three ways.  It returns, and
    then missing keys are allowed or every configured key is in the record.
    It raises the missing-key error for [k], and then missing keys are not
    allowed, [k] is configured and [k] is not in the record.  Or it raises
    what the service raised.  Nothing else is ever raised. *)
Theorem call_outcomes (ld : LoadImaged) (sv : SaveImaged) data reader σ rec :
  heap σ !! data = Some rec →
  match (LoadImaged_call ld data reader σ).1 with
  | Ok _ => allow_missing_keys (LoadImaged_base ld) = true
            ∨ ∀ k, k ∈ keys (LoadImaged_base ld) → is_Some (rec !! k)
  | Raise (KeyError k) => allow_missing_keys (LoadImaged_base ld) = false
                          ∧ k ∈ keys (LoadImaged_base ld) ∧ rec !! k = None
  | Raise TypeError => False
  | Raise (Delegated _) => True
  end
  ∧ match (SaveImaged_call sv data σ).1 with
    | Ok _ => allow_missing_keys (SaveImaged_base sv) = true
              ∨ ∀ k, k ∈ keys (SaveImaged_base sv) → is_Some (rec !! k)
    | Raise (KeyError k) => allow_missing_keys (SaveImaged_base sv) = false
                            ∧ k ∈ keys (SaveImaged_base sv) ∧ rec !! k = None
    | Raise TypeError => False
    | Raise (Delegated _) => True
    end.
Proof.
  intros Hd. split.
  - rewrite (LoadImaged_call_run _ _ _ _ rec Hd).
    pose proof (for_key_in_outcome (allow_missing_keys (LoadImaged_base ld)) _ _
      (keys (LoadImaged_base ld)) (LoadImaged_body_guarded ld _ reader)
      _ _ (after_copy_lookup σ rec)) as Hout.
    by destruct (for_key_in _ _ _ _ _) as [[[]|[k'| |e]] τ].
  - rewrite (SaveImaged_call_run _ _ _ rec Hd).
    pose proof (for_key_in_outcome (allow_missing_keys (SaveImaged_base sv)) _ _
      (keys (SaveImaged_base sv)) (SaveImaged_body_guarded sv _)
      _ _ (after_copy_lookup σ rec)) as Hout.
    by destruct (for_key_in _ _ _ _ _) as [[[]|[k'| |e]] τ].
Qed.

(** ** Absent keys that are allowed *)

(** With missing keys allowed, the loop over [ks] is the loop over the keys
    of [ks] that are in the dictionary. *)
Lemma for_key_in_present_keys allow d body ks :
  guarded_body d body →
  ∀ σ m, heap σ !! d = Some m →
    for_key_in true ks d body σ = for_key_in allow (present_keys m ks) d body σ.
Proof.
  intros Hbody. induction ks as [|k ks IH]; intros σ m Hd; [done|].
  destruct (m !! k) as [v|] eqn:Hk.
  - rewrite present_keys_cons_present by eauto.
    rewrite !(for_key_in_present _ _ _ _ _ _ m) by eauto.
    destruct (Hbody k (yield_key k σ).2 m Hd (mk_is_Some _ _ Hk)) as (m' & Hd' & Hdom & _).
    destruct (body k _) as [[[]|e] σ1]; [|done].
    rewrite <- (present_keys_dom m' m) by done. by apply IH.
  - rewrite present_keys_cons_absent by done.
    rewrite (for_key_in_absent _ _ _ _ _ _ m) by done. by apply IH.
Qed.

(** X3.  With [allow_missing_keys=True] the configured keys that are not in
    the record are ignored altogether: the call does exactly what a call
    configured with only the present keys does (same outcome, same store,
    same state of the service, same history), whatever the flag of the
    latter. *)
Theorem absent_keys_are_ignored (rec : gmap Key Value) ks allow data σ :
  heap σ !! data = Some rec →
  (∀ ldr reader,
     LoadImaged_call (mkLoadImaged (mkMapTransform ks true) ldr) data reader σ
     = LoadImaged_call (mkLoadImaged (mkMapTransform (present_keys rec ks) allow) ldr)
         data reader σ)
  ∧ (∀ svr,
     SaveImaged_call (mkSaveImaged (mkMapTransform ks true) svr) data σ
     = SaveImaged_call (mkSaveImaged (mkMapTransform (present_keys rec ks) allow) svr)
         data σ).
Proof.
  intros Hd. split.
  - intros ldr reader. rewrite !(LoadImaged_call_run _ _ _ _ rec Hd). simpl.
    rewrite (for_key_in_present_keys allow _ _ ks
      (LoadImaged_body_guarded (mkLoadImaged (mkMapTransform ks true) ldr) _ reader)
      _ rec (after_copy_lookup σ rec)).
    done.
  - intros svr. rewrite !(SaveImaged_call_run _ _ _ rec Hd). simpl.
    rewrite (for_key_in_present_keys allow _ _ ks
      (SaveImaged_body_guarded (mkSaveImaged (mkMapTransform ks true) svr) _)
      _ rec (after_copy_lookup σ rec)).
    done.
Qed.

Lemma present_keys_all (m : gmap Key Value) (ks : list Key) :
  (∀ k, k ∈ ks → is_Some (m !! k)) → present_keys m ks = ks.
Proof.
  induction ks as [|k ks IH]; intros Hall; [done|].
  rewrite present_keys_cons_present by (apply Hall; left).
  f_equal. apply IH. intros k' Hin. apply Hall. by right.
Qed.

(** X4.  When every configured key is in the record, [allow_missing_keys]
    makes no difference: the calls with the flag set and with the flag
    cleared do exactly the same. *)
Theorem flag_is_irrelevant_without_missing_keys (rec : gmap Key Value) ks data σ :
  heap σ !! data = Some rec →
  (∀ k, k ∈ ks → is_Some (rec !! k)) →
  (∀ ldr reader,
     LoadImaged_call (mkLoadImaged (mkMapTransform ks true) ldr) data reader σ
     = LoadImaged_call (mkLoadImaged (mkMapTransform ks false) ldr) data reader σ)
  ∧ (∀ svr,
     SaveImaged_call (mkSaveImaged (mkMapTransform ks true) svr) data σ
     = SaveImaged_call (mkSaveImaged (mkMapTransform ks false) svr) data σ).
Proof.
  intros Hd Hall. split.
  - intros ldr reader. rewrite !(LoadImaged_call_run _ _ _ _ rec Hd). simpl.
    rewrite (for_key_in_present_keys false _ _ ks
      (LoadImaged_body_guarded (mkLoadImaged (mkMapTransform ks true) ldr) _ reader)
      _ rec (after_copy_lookup σ rec)).
    by rewrite present_keys_all.
  - intros svr. rewrite !(SaveImaged_call_run _ _ _ rec Hd). simpl.
    rewrite (for_key_in_present_keys false _ _ ks
      (SaveImaged_body_guarded (mkSaveImaged (mkMapTransform ks true) svr) _)
      _ rec (after_copy_lookup σ rec)).
    by rewrite present_keys_all.
Qed.

(** ** What a save call does to the service *)

Lemma save_loop_direct self allow d ks : ∀ σ m,
  heap σ !! d = Some m →
  allow = true ∨ (∀ k, k ∈ ks → is_Some (m !! k)) →
  match direct_saves (saver self) (omap (m !!.) ks) (world σ) with
  | (inr _, w') =>
      ∃ σ', for_key_in allow ks d (SaveImaged_body self d) σ = (Ok (), σ')
            ∧ world σ' = w' ∧ heap σ' = heap σ
  | (inl e, w') =>
      ∃ σ', for_key_in allow ks d (SaveImaged_body self d) σ = (Raise (Delegated e), σ')
            ∧ world σ' = w' ∧ heap σ' = heap σ
  end.
Proof.
  induction ks as [|k ks IH]; intros σ m Hd Hcond.
  { simpl. by exists σ. }
  assert (Hcond' : allow = true ∨ (∀ k', k' ∈ ks → is_Some (m !! k'))).
  { destruct Hcond as [?|Hall]; [by left|right].
    intros k' Hin. apply Hall. by right. }
  rewrite omap_lookup_cons.
  destruct (m !! k) as [v|] eqn:Hk.
  - rewrite (for_key_in_present _ _ _ _ _ _ m) by eauto.
    rewrite (SaveImaged_body_run _ _ _ _ m v) by done. simpl.
    destruct (SaveImage_call _ v (world σ)) as [[e|r] w1]; [by eauto|].
    apply (IH (mkState (heap σ) w1 ((trace σ ++ [EvYield k]) ++ [EvSave v])) m Hd Hcond').
  - rewrite (for_key_in_absent _ _ _ _ _ _ m) by done.
    destruct Hcond as [->|Hall]; [by apply IH|].
    destruct (Hall k) as [? ?]; [by left|congruence].
Qed.

(** X5.  Let missing keys be allowed or every configured key be in the
    record.  Invoke the save service directly on the record's values at the
    configured keys that are present, in configured order, a key configured
    twice counting twice.  [SaveImaged.__call__] leaves the service in the
    state those invocations leave it in; it returns a dictionary with the
    content of the record if they all succeed, and raises the error of the
    first that fails otherwise. *)
Theorem SaveImaged_call_saves_each_value self data σ rec :
  heap σ !! data = Some rec →
  allow_missing_keys (SaveImaged_base self) = true
  ∨ (∀ k, k ∈ keys (SaveImaged_base self) → is_Some (rec !! k)) →
  match direct_saves (saver self) (omap (rec !!.) (keys (SaveImaged_base self)))
          (world σ) with
  | (inr _, w') =>
      ∃ d σ', SaveImaged_call self data σ = (Ok d, σ')
              ∧ world σ' = w' ∧ heap σ' !! d = Some rec
  | (inl e, w') =>
      ∃ σ', SaveImaged_call self data σ = (Raise (Delegated e), σ') ∧ world σ' = w'
  end.
Proof.
  intros Hd Hcond. rewrite (SaveImaged_call_run _ _ _ rec Hd).
  pose proof (save_loop_direct self (allow_missing_keys (SaveImaged_base self))
    (fresh (dom (heap σ))) (keys (SaveImaged_base self)) (after_copy σ rec) rec
    (after_copy_lookup σ rec) Hcond) as Hloop.
  change (world (after_copy σ rec)) with (world σ) in Hloop.
  destruct (direct_saves _ _ _) as [[e|[]] w'].
  - destruct Hloop as (σ' & -> & Hw & _). by exists σ'.
  - destruct Hloop as (σ' & -> & Hw & Hh).
    exists (fresh (dom (heap σ))), σ'. split_and!; [done..|].
    rewrite Hh. apply after_copy_lookup.
Qed.

(** ** Entries that are not configured *)

(** Two runs of the load loop on dictionaries that agree on a set of keys
    containing the configured ones, with the service in the same state, end
    the same way, leave the service in the same state and leave dictionaries
    that agree on that set. *)
Lemma load_loop_agree self allow reader ks (P : Key → Prop) :
  (∀ k, k ∈ ks → P k) →
  ∀ d1 d2 σ1 σ2 (m1 m2 : gmap Key Value),
    heap σ1 !! d1 = Some m1 → heap σ2 !! d2 = Some m2 →
    (∀ k, P k → m1 !! k = m2 !! k) →
    world σ1 = world σ2 →
    (for_key_in allow ks d1 (LoadImaged_body self d1 reader) σ1).1
      = (for_key_in allow ks d2 (LoadImaged_body self d2 reader) σ2).1
    ∧ world (for_key_in allow ks d1 (LoadImaged_body self d1 reader) σ1).2
      = world (for_key_in allow ks d2 (LoadImaged_body self d2 reader) σ2).2
    ∧ ∃ m1' m2',
        heap (for_key_in allow ks d1 (LoadImaged_body self d1 reader) σ1).2 !! d1 = Some m1'
        ∧ heap (for_key_in allow ks d2 (LoadImaged_body self d2 reader) σ2).2 !! d2 = Some m2'
        ∧ ∀ k, P k → m1' !! k = m2' !! k.
Proof.
  induction ks as [|k ks IH]; intros HP d1 d2 σ1 σ2 m1 m2 H1 H2 Hagree Hw.
  { simpl. split_and!; [done..|]. by exists m1, m2. }
  assert (HP' : ∀ k', k' ∈ ks → P k') by (intros k' Hin; apply HP; by right).
  assert (Hk12 : m1 !! k = m2 !! k) by (apply Hagree, HP; left).
  destruct (m1 !! k) as [v|] eqn:Hk1; symmetry in Hk12.
  - rewrite (for_key_in_present _ _ _ _ _ _ m1), (for_key_in_present _ _ _ _ _ _ m2) by eauto.
    rewrite (LoadImaged_body_run _ _ _ _ _ m1 v), (LoadImaged_body_run _ _ _ _ _ m2 v)
      by done.
    simpl. rewrite <- Hw.
    destruct (LoadImage_call _ v reader (world σ1)) as [[e|r] w1]; simpl.
    + split_and!; [done..|]. by exists m1, m2.
    + apply (IH HP' _ _ _ _ (<[k := r]> m1) (<[k := r]> m2));
        [apply lookup_insert_eq..| |done].
      intros k' Hk'. destruct (decide (k = k')) as [->|Hne].
      * by rewrite !lookup_insert_eq.
      * rewrite !lookup_insert_ne by done. by apply Hagree.
  - rewrite (for_key_in_absent _ _ _ _ _ _ m1), (for_key_in_absent _ _ _ _ _ _ m2) by done.
    destruct allow; [by apply (IH HP' _ _ _ _ m1 m2)|].
    simpl. split_and!; [done..|]. by exists m1, m2.
Qed.

Lemma save_loop_agree self allow ks :
  ∀ d1 d2 σ1 σ2 (m1 m2 : gmap Key Value),
    heap σ1 !! d1 = Some m1 → heap σ2 !! d2 = Some m2 →
    (∀ k, k ∈ ks → m1 !! k = m2 !! k) →
    world σ1 = world σ2 →
    (for_key_in allow ks d1 (SaveImaged_body self d1) σ1).1
      = (for_key_in allow ks d2 (SaveImaged_body self d2) σ2).1
    ∧ world (for_key_in allow ks d1 (SaveImaged_body self d1) σ1).2
      = world (for_key_in allow ks d2 (SaveImaged_body self d2) σ2).2.
Proof.
  induction ks as [|k ks IH]; intros d1 d2 σ1 σ2 m1 m2 H1 H2 Hagree Hw; [done|].
  assert (Hagree' : ∀ k', k' ∈ ks → m1 !! k' = m2 !! k')
    by (intros k' Hin; apply Hagree; by right).
  assert (Hk12 : m1 !! k = m2 !! k) by (apply Hagree; left).
  destruct (m1 !! k) as [v|] eqn:Hk1; symmetry in Hk12.
  - rewrite (for_key_in_present _ _ _ _ _ _ m1), (for_key_in_present _ _ _ _ _ _ m2) by eauto.
    rewrite (SaveImaged_body_run _ _ _ _ m1 v), (SaveImaged_body_run _ _ _ _ m2 v) by done.
    simpl. rewrite <- Hw.
    destruct (SaveImage_call _ v (world σ1)) as [[e|r] w1]; simpl; [done|].
    by apply (IH _ _ _ _ m1 m2).
  - rewrite (for_key_in_absent _ _ _ _ _ _ m1), (for_key_in_absent _ _ _ _ _ _ m2) by done.
    destruct allow; [by apply (IH _ _ _ _ m1 m2)|done].
Qed.

(** X6.  The calls look at the configured entries only.  Take two mappings
    that agree on every configured key (both bind it to the same value, or
    both lack it) and may differ in anything else, and call the same adapter
    on each with the service in the same state.  Both calls end the same way
    (both return, or both raise the same exception) and leave the service in
    the same state; the dictionaries [LoadImaged] returns agree on every
    configured key. *)
Theorem calls_read_configured_entries_only (ld : LoadImaged) (sv : SaveImaged)
    data1 data2 reader σ1 σ2 (rec1 rec2 : gmap Key Value) :
  heap σ1 !! data1 = Some rec1 → heap σ2 !! data2 = Some rec2 →
  world σ1 = world σ2 →
  ((∀ k, k ∈ keys (LoadImaged_base ld) → rec1 !! k = rec2 !! k) →
     exception_of (LoadImaged_call ld data1 reader σ1).1
       = exception_of (LoadImaged_call ld data2 reader σ2).1
     ∧ world (LoadImaged_call ld data1 reader σ1).2
       = world (LoadImaged_call ld data2 reader σ2).2
     ∧ ∀ d1 d2 k,
         (LoadImaged_call ld data1 reader σ1).1 = Ok d1 →
         (LoadImaged_call ld data2 reader σ2).1 = Ok d2 →
         k ∈ keys (LoadImaged_base ld) →
         heap (LoadImaged_call ld data1 reader σ1).2 !! d1 ≫= (λ m, m !! k)
         = heap (LoadImaged_call ld data2 reader σ2).2 !! d2 ≫= (λ m, m !! k))
  ∧ ((∀ k, k ∈ keys (SaveImaged_base sv) → rec1 !! k = rec2 !! k) →
     exception_of (SaveImaged_call sv data1 σ1).1
       = exception_of (SaveImaged_call sv data2 σ2).1
     ∧ world (SaveImaged_call sv data1 σ1).2 = world (SaveImaged_call sv data2 σ2).2).
Proof.
  intros H1 H2 Hw. split; intros Hagree.
  - rewrite (LoadImaged_call_run _ _ _ _ rec1 H1), (LoadImaged_call_run _ _ _ _ rec2 H2).
    destruct (load_loop_agree ld (allow_missing_keys (LoadImaged_base ld)) reader
      (keys (LoadImaged_base ld)) (λ k, k ∈ keys (LoadImaged_base ld)) (λ _ H, H)
      (fresh (dom (heap σ1))) (fresh (dom (heap σ2))) (after_copy σ1 rec1)
      (after_copy σ2 rec2) rec1 rec2 (after_copy_lookup σ1 rec1)
      (after_copy_lookup σ2 rec2) Hagree Hw) as (Hout & Hworld & m1' & m2' & Hm1 & Hm2 & Hag).
    destruct (for_key_in _ _ _ _ (after_copy σ1 rec1)) as [[[]|e1] τ1];
      destruct (for_key_in _ _ _ _ (after_copy σ2 rec2)) as [[[]|e2] τ2];
      simpl in *; try done; split_and!; try done; try congruence.
    intros d1 d2 k [= <-] [= <-] Hin. rewrite Hm1, Hm2. simpl. by apply Hag.
  - rewrite (SaveImaged_call_run _ _ _ rec1 H1), (SaveImaged_call_run _ _ _ rec2 H2).
    destruct (save_loop_agree sv (allow_missing_keys (SaveImaged_base sv))
      (keys (SaveImaged_base sv))
      (fresh (dom (heap σ1))) (fresh (dom (heap σ2))) (after_copy σ1 rec1)
      (after_copy σ2 rec2) rec1 rec2 (after_copy_lookup σ1 rec1)
      (after_copy_lookup σ2 rec2) Hagree Hw) as (Hout & Hworld).
    destruct (for_key_in _ _ _ _ (after_copy σ1 rec1)) as [[[]|e1] τ1];
      destruct (for_key_in _ _ _ _ (after_copy σ2 rec2)) as [[[]|e2] τ2];
      simpl in *; try done; split; congruence.
Qed.

(** ** One adapter after the other *)

(** X7.  An adapter configured with the keys [ks1 ++ ks2] does what the
    adapter for [ks1] followed by the adapter for [ks2], applied to what the
    first returned, does: the caller gets the same (a dictionary with the
    same content, or the same exception) and the service ends in the same
    state.  If the adapter for [ks1] raises, the adapter for [ks1 ++ ks2]
    raises the same exception in the same state. *)
Theorem calls_compose allow ks1 ks2 data σ :
  (∀ ldr reader,
     match LoadImaged_call (mkLoadImaged (mkMapTransform ks1 allow) ldr) data reader σ with
     | (Ok d1, σ1) =>
         result_of (LoadImaged_call (mkLoadImaged (mkMapTransform (ks1 ++ ks2) allow) ldr)
                      data reader σ)
         = result_of (LoadImaged_call (mkLoadImaged (mkMapTransform ks2 allow) ldr)
                        d1 reader σ1)
         ∧ world (LoadImaged_call (mkLoadImaged (mkMapTransform (ks1 ++ ks2) allow) ldr)
                    data reader σ).2
           = world (LoadImaged_call (mkLoadImaged (mkMapTransform ks2 allow) ldr)
                      d1 reader σ1).2
     | (Raise e, σ1) =>
         LoadImaged_call (mkLoadImaged (mkMapTransform (ks1 ++ ks2) allow) ldr) data reader σ
         = (Raise e, σ1)
     end)
  ∧ (∀ svr,
     match SaveImaged_call (mkSaveImaged (mkMapTransform ks1 allow) svr) data σ with
     | (Ok d1, σ1) =>
         result_of (SaveImaged_call (mkSaveImaged (mkMapTransform (ks1 ++ ks2) allow) svr)
                      data σ)
         = result_of (SaveImaged_call (mkSaveImaged (mkMapTransform ks2 allow) svr) d1 σ1)
         ∧ world (SaveImaged_call (mkSaveImaged (mkMapTransform (ks1 ++ ks2) allow) svr)
                    data σ).2
           = world (SaveImaged_call (mkSaveImaged (mkMapTransform ks2 allow) svr) d1 σ1).2
     | (Raise e, σ1) =>
         SaveImaged_call (mkSaveImaged (mkMapTransform (ks1 ++ ks2) allow) svr) data σ
         = (Raise e, σ1)
     end).
Proof.
  split.
  - intros ldr reader.
    destruct (LoadImaged_call (mkLoadImaged (mkMapTransform ks1 allow) ldr) data reader σ)
      as [[d1|e] σ1] eqn:Hpre.
    + rewrite (LoadImaged_call_prefix _ _ _ ks2 _ _ _ _ _ Hpre).
      assert (∃ m1, heap σ1 !! d1 = Some m1) as [m1 Hm1].
      { destruct (call_ok_is_mapping_load _ _ _ _ _ _ Hpre) as [rec Hd].
        rewrite (LoadImaged_call_run _ _ _ _ rec Hd) in Hpre. simpl in Hpre.
        destruct (load_loop_heap (mkLoadImaged (mkMapTransform ks1 allow) ldr) allow ks1
          (fresh (dom (heap σ))) reader (after_copy σ rec) rec (after_copy_lookup σ rec))
          as (m' & Hh & _ & _).
        destruct (for_key_in _ _ _ _ _) as [[[]|e] τ]; [|done].
        injection Hpre as <- <-. exists m'. simpl in Hh. by rewrite Hh, lookup_insert_eq. }
      rewrite (LoadImaged_call_run _ _ _ _ m1 Hm1). simpl.
      change (LoadImaged_body (mkLoadImaged (mkMapTransform (ks1 ++ ks2) allow) ldr))
        with (LoadImaged_body (mkLoadImaged (mkMapTransform ks2 allow) ldr)).
      destruct (load_loop_agree (mkLoadImaged (mkMapTransform ks2 allow) ldr) allow reader
        ks2 (λ _, True) (λ _ _, I) d1 (fresh (dom (heap σ1))) σ1 (after_copy σ1 m1) m1 m1
        Hm1 (after_copy_lookup σ1 m1) (λ _ _, eq_refl) eq_refl)
        as (Hout & Hworld & m1' & m2' & Hc1 & Hc2 & Hag).
      assert (m1' = m2') as <- by (apply map_eq; intros k; by apply Hag).
      destruct (for_key_in _ _ _ _ σ1) as [[[]|e1] τ1];
        destruct (for_key_in _ _ _ _ (after_copy σ1 m1)) as [[[]|e2] τ2];
        simpl in *; try done; split; congruence.
    + destruct (heap σ !! data) as [rec|] eqn:Hd.
      * rewrite (LoadImaged_call_run _ _ _ _ rec Hd) in Hpre.
        rewrite (LoadImaged_call_run _ _ _ _ rec Hd). simpl in *.
        rewrite for_key_in_app.
        change (LoadImaged_body (mkLoadImaged (mkMapTransform (ks1 ++ ks2) allow) ldr))
          with (LoadImaged_body (mkLoadImaged (mkMapTransform ks1 allow) ldr)).
        by destruct (for_key_in allow ks1 _ _ _) as [[[]|e'] τ].
      * rewrite LoadImaged_call_not_mapping in Hpre by done.
        by rewrite LoadImaged_call_not_mapping.
  - intros svr.
    destruct (SaveImaged_call (mkSaveImaged (mkMapTransform ks1 allow) svr) data σ)
      as [[d1|e] σ1] eqn:Hpre.
    + rewrite (SaveImaged_call_prefix _ _ _ ks2 _ _ _ _ Hpre).
      assert (∃ m1, heap σ1 !! d1 = Some m1) as [m1 Hm1].
      { destruct (call_ok_is_mapping_save _ _ _ _ _ Hpre) as [rec Hd].
        rewrite (SaveImaged_call_run _ _ _ rec Hd) in Hpre. simpl in Hpre.
        pose proof (save_loop_heap (mkSaveImaged (mkMapTransform ks1 allow) svr) allow ks1
          (fresh (dom (heap σ))) (after_copy σ rec)) as Hh.
        destruct (for_key_in _ _ _ _ _) as [[[]|e] τ]; [|done].
        injection Hpre as <- <-. exists rec. simpl in Hh. rewrite Hh.
        apply after_copy_lookup. }
      rewrite (SaveImaged_call_run _ _ _ m1 Hm1). simpl.
      change (SaveImaged_body (mkSaveImaged (mkMapTransform (ks1 ++ ks2) allow) svr))
        with (SaveImaged_body (mkSaveImaged (mkMapTransform ks2 allow) svr)).
      destruct (save_loop_agree (mkSaveImaged (mkMapTransform ks2 allow) svr) allow ks2
        d1 (fresh (dom (heap σ1))) σ1 (after_copy σ1 m1) m1 m1
        Hm1 (after_copy_lookup σ1 m1) (λ _ _, eq_refl) eq_refl) as (Hout & Hworld).
      pose proof (save_loop_heap (mkSaveImaged (mkMapTransform ks2 allow) svr) allow ks2
        d1 σ1) as Hh1.
      pose proof (save_loop_heap (mkSaveImaged (mkMapTransform ks2 allow) svr) allow ks2
        (fresh (dom (heap σ1))) (after_copy σ1 m1)) as Hh2.
      destruct (for_key_in _ _ _ _ σ1) as [[[]|e1] τ1];
        destruct (for_key_in _ _ _ _ (after_copy σ1 m1)) as [[[]|e2] τ2];
        simpl in *; try done; split; try congruence.
      by rewrite Hh1, Hh2, Hm1, lookup_insert_eq.
    + destruct (heap σ !! data) as [rec|] eqn:Hd.
      * rewrite (SaveImaged_call_run _ _ _ rec Hd) in Hpre.
        rewrite (SaveImaged_call_run _ _ _ rec Hd). simpl in *.
        rewrite for_key_in_app.
        change (SaveImaged_body (mkSaveImaged (mkMapTransform (ks1 ++ ks2) allow) svr))
          with (SaveImaged_body (mkSaveImaged (mkMapTransform ks1 allow) svr)).
        by destruct (for_key_in allow ks1 _ _ _) as [[[]|e'] τ].
      * rewrite SaveImaged_call_not_mapping in Hpre by done.
        by rewrite SaveImaged_call_not_mapping.
Qed.

(** ** Loading when keys may be missing *)

Lemma omap_present_keys (m : gmap Key Value) (ks : list Key) :
  omap (m !!.) (present_keys m ks) = omap (m !!.) ks.
Proof.
  induction ks as [|k ks IH]; [done|].
  destruct (m !! k) as [v|] eqn:Hk.
  - rewrite present_keys_cons_present by eauto.
    by rewrite !omap_lookup_cons, Hk, IH.
  - rewrite present_keys_cons_absent by done.
    by rewrite omap_lookup_cons, Hk, IH.
Qed.

Lemma present_keys_present (m : gmap Key Value) (ks : list Key) k :
  k ∈ present_keys m ks → is_Some (m !! k).
Proof. unfold present_keys. by intros [? ?]%list_elem_of_filter. Qed.

(** X8.  Let the configured keys be pairwise distinct and missing keys be
    allowed.  Invoke the load service directly on the record's original
    values at the configured keys that are present, in configured order.  If
    those invocations succeed, [LoadImaged.__call__] returns a dictionary
    whose value at the i-th present configured key is the i-th answer; if
    one of them raises, the call raises the same error.  The service is left
    in the same state either way. *)
Theorem LoadImaged_call_loads_present_keys ks ldr data reader σ rec :
  heap σ !! data = Some rec →
  NoDup ks →
  match direct_loads ldr reader (omap (rec !!.) ks) (world σ) with
  | (inr rs, w') =>
      ∃ d σ' m',
        LoadImaged_call (mkLoadImaged (mkMapTransform ks true) ldr) data reader σ = (Ok d, σ')
        ∧ world σ' = w' ∧ heap σ' !! d = Some m'
        ∧ ∀ i k, present_keys rec ks !! i = Some k → m' !! k = rs !! i
  | (inl e, w') =>
      ∃ σ', LoadImaged_call (mkLoadImaged (mkMapTransform ks true) ldr) data reader σ
              = (Raise (Delegated e), σ')
            ∧ world σ' = w'
  end.
Proof.
  intros Hd Hnd. rewrite (LoadImaged_call_run _ _ _ _ rec Hd). simpl.
  rewrite (for_key_in_present_keys true _ _ ks
    (LoadImaged_body_guarded (mkLoadImaged (mkMapTransform ks true) ldr) _ reader)
    _ rec (after_copy_lookup σ rec)).
  pose proof (load_loop_direct (mkLoadImaged (mkMapTransform ks true) ldr) true reader
    (fresh (dom (heap σ))) (present_keys rec ks) (after_copy σ rec) rec
    (after_copy_lookup σ rec) (NoDup_filter _ _ Hnd) (present_keys_present rec ks))
    as Hloop.
  rewrite omap_present_keys in Hloop.
  change (world (after_copy σ rec)) with (world σ) in Hloop. simpl in Hloop.
  destruct (direct_loads _ _ _ _) as [[e|rs] w'].
  - destruct Hloop as (σ' & -> & Hw). by exists σ'.
  - destruct Hloop as (σ' & m' & -> & Hw & Hm' & Hvals).
    by exists (fresh (dom (heap σ))), σ', m'.
Qed.

End More.

(** * The further properties at concrete inputs *)

Lemma LoadImaged_call_same_keys_witness :
  ∃ m', heap (LoadImaged_call (demo_loader ["img"] false) 1 None
                (store_of demo img_seg [])).2 !! 2%positive = Some m'
        ∧ dom m' = dom img_seg.
Proof.
  apply (LoadImaged_call_same_keys (demo_loader ["img"] false) 1 None
           (store_of demo img_seg []) img_seg 2).
  - vm_compute; reflexivity.
  - vm_compute; reflexivity.
Defined.

Lemma call_outcomes_witness :
  match (LoadImaged_call (demo_loader ["img"; "seg"] false) 1 None
           (store_of demo img_only [])).1 with
  | Ok _ => false = true ∨ ∀ k, k ∈ ["img"; "seg"]%string → is_Some (img_only !! k)
  | Raise (KeyError k) => false = false ∧ k ∈ ["img"; "seg"]%string ∧ img_only !! k = None
  | Raise TypeError => False
  | Raise (Delegated _) => True
  end
  ∧ match (SaveImaged_call (demo_saver ["img"; "seg"] true ".nii.gz") 1
             (store_of demo img_only [])).1 with
    | Ok _ => true = true ∨ ∀ k, k ∈ ["img"; "seg"]%string → is_Some (img_only !! k)
    | Raise (KeyError k) => true = false ∧ k ∈ ["img"; "seg"]%string ∧ img_only !! k = None
    | Raise TypeError => False
    | Raise (Delegated _) => True
    end.
Proof.
  apply (call_outcomes (S := demo) (demo_loader ["img"; "seg"] false)
           (demo_saver ["img"; "seg"] true ".nii.gz") 1 None
           (store_of demo img_only []) img_only).
  vm_compute; reflexivity.
Defined.

Lemma absent_keys_are_ignored_witness :
  LoadImaged_call (demo_loader ["aux"; "img"; "seg"] true) 1 None (store_of demo img_only [])
  = LoadImaged_call (demo_loader ["img"] false) 1 None (store_of demo img_only [])
  ∧ SaveImaged_call (demo_saver ["aux"; "img"; "seg"] true ".nii.gz") 1
      (store_of demo img_only [])
    = SaveImaged_call (demo_saver ["img"] false ".nii.gz") 1 (store_of demo img_only []).
Proof.
  destruct (absent_keys_are_ignored (S := demo) img_only ["aux"; "img"; "seg"]%string false
              1 (store_of demo img_only [])) as [Hload Hsave]; [vm_compute; reflexivity|].
  split.
  - exact (Hload demo_readers None).
  - exact (Hsave (Storage.mkSaver "/out" "pred" ".nii.gz")).
Defined.

Lemma flag_is_irrelevant_without_missing_keys_witness :
  LoadImaged_call (demo_loader ["img"; "seg"] true) 1 None (store_of demo img_seg [])
  = LoadImaged_call (demo_loader ["img"; "seg"] false) 1 None (store_of demo img_seg [])
  ∧ SaveImaged_call (demo_saver ["img"; "seg"] true ".nii.gz") 1 (store_of demo img_seg [])
    = SaveImaged_call (demo_saver ["img"; "seg"] false ".nii.gz") 1
        (store_of demo img_seg []).
Proof.
  destruct (flag_is_irrelevant_without_missing_keys (S := demo) img_seg
              ["img"; "seg"]%string 1 (store_of demo img_seg [])) as [Hload Hsave].
  - vm_compute; reflexivity.
  - intros k Hk. apply list_elem_of_In in Hk. simpl in Hk.
    destruct Hk as [<-|[<-|[]]]; vm_compute; eauto.
  - split.
    + exact (Hload demo_readers None).
    + exact (Hsave (Storage.mkSaver "/out" "pred" ".nii.gz")).
Defined.

Lemma SaveImaged_call_saves_each_value_witness :
  match direct_saves (S := demo) (Storage.mkSaver "/out" "pred" ".nii.gz")
          (omap (img_seg !!.) ["seg"; "aux"; "seg"]%string) [] with
  | (inr _, w') =>
      ∃ d σ', SaveImaged_call (demo_saver ["seg"; "aux"; "seg"] true ".nii.gz") 1
                (store_of demo img_seg []) = (Ok d, σ')
              ∧ world σ' = w' ∧ heap σ' !! d = Some img_seg
  | (inl e, w') =>
      ∃ σ', SaveImaged_call (demo_saver ["seg"; "aux"; "seg"] true ".nii.gz") 1
              (store_of demo img_seg []) = (Raise (Delegated e), σ')
            ∧ world σ' = w'
  end.
Proof.
  apply (SaveImaged_call_saves_each_value (demo_saver ["seg"; "aux"; "seg"] true ".nii.gz")
           1 (store_of demo img_seg []) img_seg).
  - vm_compute; reflexivity.
  - left. reflexivity.
Defined.

Lemma calls_read_configured_entries_only_witness :
  exception_of (LoadImaged_call (demo_loader ["img"] false) 1 None
                  (store_of demo img_seg [])).1
  = exception_of (LoadImaged_call (demo_loader ["img"] false) 1 None
                    (store_of demo img_only [])).1
  ∧ world (SaveImaged_call (demo_saver ["img"] false ".nii.gz") 1
             (store_of demo img_seg [])).2
    = world (SaveImaged_call (demo_saver ["img"] false ".nii.gz") 1
               (store_of demo img_only [])).2.
Proof.
  destruct (calls_read_configured_entries_only (S := demo) (demo_loader ["img"] false)
              (demo_saver ["img"] false ".nii.gz") 1 1 None
              (store_of demo img_seg []) (store_of demo img_only []) img_seg img_only)
    as [Hload Hsave]; [vm_compute; reflexivity..|].
  assert (Hagree : ∀ k, k ∈ ["img"%string] → img_seg !! k = img_only !! k).
  { intros k Hk. apply list_elem_of_In in Hk. simpl in Hk.
    destruct Hk as [<-|[]]. vm_compute; reflexivity. }
  split.
  - apply (Hload Hagree).
  - apply (Hsave Hagree).
Defined.

Lemma LoadImaged_call_loads_present_keys_witness :
  match direct_loads (S := demo) demo_readers None
          (omap (img_only !!.) ["img"; "seg"]%string) [] with
  | (inr rs, w') =>
      ∃ d σ' m',
        LoadImaged_call (demo_loader ["img"; "seg"] true) 1 None (store_of demo img_only [])
          = (Ok d, σ')
        ∧ world σ' = w' ∧ heap σ' !! d = Some m'
        ∧ ∀ i k, present_keys (S := demo) img_only ["img"; "seg"]%string !! i = Some k →
            m' !! k = rs !! i
  | (inl e, w') =>
      ∃ σ', LoadImaged_call (demo_loader ["img"; "seg"] true) 1 None
              (store_of demo img_only []) = (Raise (Delegated e), σ')
            ∧ world σ' = w'
  end.
Proof.
  apply (LoadImaged_call_loads_present_keys (S := demo) ["img"; "seg"]%string demo_readers
           1 None (store_of demo img_only []) img_only).
  - vm_compute; reflexivity.
  - apply NoDup_cons. split; [|apply NoDup_singleton].
    intros H%list_elem_of_In. simpl in H. intuition discriminate.
Defined.
